(** * AST-to-SSA lowering of the autopiper frontend: a shallow embedding

    This development embeds [src/frontend/codegen.cc] (the code generator that
    lowers the typed AST to the SSA control-flow-graph IR) and the type
    definition parser of [src/frontend/parser.cc], and proves properties of
    the embedded functions.

    Conventions of the embedding.
    - A C++ pointer is a natural number: the index of the allocation
      ([new IRBB], [new IRStmt], [new IRTimeVar]) or, for AST nodes, the
      number the input AST carries.  A null pointer is [None].
    - Objects that are mutated through pointers after their creation (basic
      blocks, IR statements) live in heaps ([gmap]s from pointers to records).
    - A [std::map] keyed by pointers is a list of pairs kept sorted by key
      address, so that iterating over the list is iterating over the map.
    - A [std::vector] is a list in the same order ([push_back] appends at the
      end, [back] is the last element).
    - The lowering functions run in a state monad over the code generator's
      state whose third outcome, [Undef], stands for undefined behaviour of the
      C++ program (dereferencing a null pointer, [back()] of an empty vector,
      a failed [assert], signed overflow). *)

From stdpp Require Import gmap strings list fin_maps pretty.
From Stdlib Require Import ZArith Lia.

Local Open Scope Z_scope.

(** ** Pointers *)

Abbreviation BBPtr := nat (only parsing).
Abbreviation StmtPtr := nat (only parsing).
Abbreviation TimeVarPtr := nat (only parsing).
Abbreviation LetPtr := nat (only parsing).

(** Expressions are either nodes of the input AST or the placeholder
    expressions ([ctx_->ast()->ir_exprs]) that the code generator allocates
    for phi nodes. *)
Inductive ExprPtr : Type :=
  | AstNode (n : nat)
  | IrExpr (n : nat).

#[global] Instance ExprPtr_eq_dec : EqDecision ExprPtr.
Proof. solve_decision. Defined.

#[global] Instance ExprPtr_countable : Countable ExprPtr.
Proof.
  refine (inj_countable'
            (fun p => match p with AstNode n => inl n | IrExpr n => inr n end)
            (fun s => match s with inl n => AstNode n | inr n => IrExpr n end) _).
  by intros [].
Defined.

(** ** The AST, as far as the code generator reads it *)

(** [ASTExpr::Op]: the operators that [codegen.cc] names. *)
Inductive Op : Type :=
  | ADD | SUB | MUL | DIV | REM | AND | OR | NOT | XOR | LSH | RSH | SEL
  | BITSLICE | CONCAT | EQ | NE | LE | LT | GE | GT
  | CONST | VAR | PORTDEF | PORTREAD | ARRAY_INIT | ARRAY_REF
  | REG_INIT | REG_REF | BYPASSDEF | BYPASSPRESENT | BYPASSREADY | BYPASSREAD
  | STMTBLOCK | CAST | FIELD_REF | NOP.

#[global] Instance Op_eq_dec : EqDecision Op.
Proof. solve_decision. Defined.

(** [inferred_type] of an expression or of a let. *)
Record ASTType : Type := Build_ASTType {
  ty_width : Z;
  is_port : bool;
  is_chan : bool;
  array_size : Z
}.

(** An [ASTStmtLet*], together with the one field of the let that is read
    through such a pointer ([let->inferred_type]). *)
Record LetRef : Type := Build_LetRef {
  let_ptr : LetPtr;
  let_inferred_type : ASTType
}.

#[local] Unset Elimination Schemes.
Inductive ASTExpr : Type :=
  | MkExpr (ptr : ExprPtr) (o : Op) (operands : list ASTExpr)
           (ident : option string) (const : Z) (has_const : bool)
           (ty : ASTType) (def : option LetRef)
           (stmt : option (list ASTStmt))
with ASTStmt : Type :=
  | StmtBlock (body : list ASTStmt)
  | StmtLet (l : LetRef) (rhs : ASTExpr)
  | StmtAssign (lhs rhs : ASTExpr)
  | StmtIf (condition : ASTExpr) (if_body : ASTStmt) (else_body : option ASTStmt)
  | StmtWhile (lbl : option string) (condition : ASTExpr) (body : ASTStmt)
  | StmtBreak (lbl : option string)
  | StmtContinue (lbl : option string)
  | StmtWrite (port rhs : ASTExpr)
  | StmtSpawn (body : ASTStmt)
  | StmtKill
  | StmtKillYounger
  | StmtKillIf (condition : ASTExpr)
  | StmtTiming (body : ASTStmt)
  | StmtStage (offset : Z)
  | StmtExpr (e : ASTExpr)
  | StmtNestedFunc (body : list ASTStmt)
  | StmtOnKillYounger (body : list ASTStmt)
  | StmtBypassStart (bypass index : ASTExpr)
  | StmtBypassEnd (bypass : ASTExpr)
  | StmtBypassWrite (bypass value : ASTExpr).
#[local] Set Elimination Schemes.

Definition expr_ptr (e : ASTExpr) : ExprPtr :=
  match e with MkExpr p _ _ _ _ _ _ _ _ => p end.
Definition expr_op (e : ASTExpr) : Op :=
  match e with MkExpr _ o _ _ _ _ _ _ _ => o end.
Definition expr_ops (e : ASTExpr) : list ASTExpr :=
  match e with MkExpr _ _ l _ _ _ _ _ _ => l end.
Definition expr_ident (e : ASTExpr) : option string :=
  match e with MkExpr _ _ _ i _ _ _ _ _ => i end.
Definition expr_constant (e : ASTExpr) : Z :=
  match e with MkExpr _ _ _ _ c _ _ _ _ => c end.
Definition expr_has_constant (e : ASTExpr) : bool :=
  match e with MkExpr _ _ _ _ _ h _ _ _ => h end.
Definition inferred_type (e : ASTExpr) : ASTType :=
  match e with MkExpr _ _ _ _ _ _ t _ _ => t end.
Definition expr_def (e : ASTExpr) : option LetRef :=
  match e with MkExpr _ _ _ _ _ _ _ d _ => d end.
Definition expr_stmt (e : ASTExpr) : option (list ASTStmt) :=
  match e with MkExpr _ _ _ _ _ _ _ _ s => s end.

(** [ASTFunctionDef], as far as the code generator reads it. *)
Record ASTFunctionDef : Type := Build_ASTFunctionDef {
  fn_is_entry : bool;
  fn_name : string;
  fn_block : list ASTStmt
}.

(** ** The IR *)

Inductive IRStmtType : Type :=
  | IRStmtExpr | IRStmtPortRead | IRStmtPortWrite | IRStmtPortExport
  | IRStmtChanRead | IRStmtChanWrite | IRStmtRegRead | IRStmtRegWrite
  | IRStmtArraySize | IRStmtArrayRead | IRStmtArrayWrite
  | IRStmtBypassStart | IRStmtBypassEnd | IRStmtBypassWrite
  | IRStmtBypassPresent | IRStmtBypassReady | IRStmtBypassRead
  | IRStmtIf | IRStmtJmp | IRStmtPhi
  | IRStmtKill | IRStmtKillIf | IRStmtKillYounger
  | IRStmtSpawn | IRStmtTimingBarrier | IRStmtDone.

#[global] Instance IRStmtType_eq_dec : EqDecision IRStmtType.
Proof. solve_decision. Defined.

Inductive IRStmtOp : Type :=
  | IRStmtOpNone | IRStmtOpConst
  | IRStmtOpAdd | IRStmtOpSub | IRStmtOpMul | IRStmtOpDiv | IRStmtOpRem
  | IRStmtOpAnd | IRStmtOpOr | IRStmtOpNot | IRStmtOpXor
  | IRStmtOpLsh | IRStmtOpRsh | IRStmtOpSelect | IRStmtOpBitslice
  | IRStmtOpConcat
  | IRStmtOpCmpEQ | IRStmtOpCmpNE | IRStmtOpCmpLE | IRStmtOpCmpLT
  | IRStmtOpCmpGE | IRStmtOpCmpGT.

#[global] Instance IRStmtOp_eq_dec : EqDecision IRStmtOp.
Proof. solve_decision. Defined.

Record IRStmt : Type := Build_IRStmt {
  valnum : Z;
  type : IRStmtType;
  op : IRStmtOp;
  width : Z;
  args : list StmtPtr;
  arg_nums : list Z;
  targets : list BBPtr;
  target_names : list string;
  constant : Z;
  has_constant : bool;
  port_name : string;
  timevar : option TimeVarPtr;
  time_offset : Z;
  port_default : Z;
  port_has_default : bool
}.

Definition set_valnum (v : Z) (r : IRStmt) : IRStmt :=
  Build_IRStmt v (type r) (op r) (width r) (args r) (arg_nums r) (targets r) (target_names r) (constant r) (has_constant r) (port_name r) (timevar r) (time_offset r) (port_default r) (port_has_default r).
#[global] Arguments set_valnum v r /.
Definition set_type (v : IRStmtType) (r : IRStmt) : IRStmt :=
  Build_IRStmt (valnum r) v (op r) (width r) (args r) (arg_nums r) (targets r) (target_names r) (constant r) (has_constant r) (port_name r) (timevar r) (time_offset r) (port_default r) (port_has_default r).
#[global] Arguments set_type v r /.
Definition set_op (v : IRStmtOp) (r : IRStmt) : IRStmt :=
  Build_IRStmt (valnum r) (type r) v (width r) (args r) (arg_nums r) (targets r) (target_names r) (constant r) (has_constant r) (port_name r) (timevar r) (time_offset r) (port_default r) (port_has_default r).
#[global] Arguments set_op v r /.
Definition set_width (v : Z) (r : IRStmt) : IRStmt :=
  Build_IRStmt (valnum r) (type r) (op r) v (args r) (arg_nums r) (targets r) (target_names r) (constant r) (has_constant r) (port_name r) (timevar r) (time_offset r) (port_default r) (port_has_default r).
#[global] Arguments set_width v r /.
Definition set_args (v : list StmtPtr) (r : IRStmt) : IRStmt :=
  Build_IRStmt (valnum r) (type r) (op r) (width r) v (arg_nums r) (targets r) (target_names r) (constant r) (has_constant r) (port_name r) (timevar r) (time_offset r) (port_default r) (port_has_default r).
#[global] Arguments set_args v r /.
Definition set_arg_nums (v : list Z) (r : IRStmt) : IRStmt :=
  Build_IRStmt (valnum r) (type r) (op r) (width r) (args r) v (targets r) (target_names r) (constant r) (has_constant r) (port_name r) (timevar r) (time_offset r) (port_default r) (port_has_default r).
#[global] Arguments set_arg_nums v r /.
Definition set_targets (v : list BBPtr) (r : IRStmt) : IRStmt :=
  Build_IRStmt (valnum r) (type r) (op r) (width r) (args r) (arg_nums r) v (target_names r) (constant r) (has_constant r) (port_name r) (timevar r) (time_offset r) (port_default r) (port_has_default r).
#[global] Arguments set_targets v r /.
Definition set_target_names (v : list string) (r : IRStmt) : IRStmt :=
  Build_IRStmt (valnum r) (type r) (op r) (width r) (args r) (arg_nums r) (targets r) v (constant r) (has_constant r) (port_name r) (timevar r) (time_offset r) (port_default r) (port_has_default r).
#[global] Arguments set_target_names v r /.
Definition set_constant (v : Z) (r : IRStmt) : IRStmt :=
  Build_IRStmt (valnum r) (type r) (op r) (width r) (args r) (arg_nums r) (targets r) (target_names r) v (has_constant r) (port_name r) (timevar r) (time_offset r) (port_default r) (port_has_default r).
#[global] Arguments set_constant v r /.
Definition set_has_constant (v : bool) (r : IRStmt) : IRStmt :=
  Build_IRStmt (valnum r) (type r) (op r) (width r) (args r) (arg_nums r) (targets r) (target_names r) (constant r) v (port_name r) (timevar r) (time_offset r) (port_default r) (port_has_default r).
#[global] Arguments set_has_constant v r /.
Definition set_port_name (v : string) (r : IRStmt) : IRStmt :=
  Build_IRStmt (valnum r) (type r) (op r) (width r) (args r) (arg_nums r) (targets r) (target_names r) (constant r) (has_constant r) v (timevar r) (time_offset r) (port_default r) (port_has_default r).
#[global] Arguments set_port_name v r /.
Definition set_timevar (v : option TimeVarPtr) (r : IRStmt) : IRStmt :=
  Build_IRStmt (valnum r) (type r) (op r) (width r) (args r) (arg_nums r) (targets r) (target_names r) (constant r) (has_constant r) (port_name r) v (time_offset r) (port_default r) (port_has_default r).
#[global] Arguments set_timevar v r /.
Definition set_time_offset (v : Z) (r : IRStmt) : IRStmt :=
  Build_IRStmt (valnum r) (type r) (op r) (width r) (args r) (arg_nums r) (targets r) (target_names r) (constant r) (has_constant r) (port_name r) (timevar r) v (port_default r) (port_has_default r).
#[global] Arguments set_time_offset v r /.
Definition set_port_default (v : Z) (r : IRStmt) : IRStmt :=
  Build_IRStmt (valnum r) (type r) (op r) (width r) (args r) (arg_nums r) (targets r) (target_names r) (constant r) (has_constant r) (port_name r) (timevar r) (time_offset r) v (port_has_default r).
#[global] Arguments set_port_default v r /.
Definition set_port_has_default (v : bool) (r : IRStmt) : IRStmt :=
  Build_IRStmt (valnum r) (type r) (op r) (width r) (args r) (arg_nums r) (targets r) (target_names r) (constant r) (has_constant r) (port_name r) (timevar r) (time_offset r) (port_default r) v.
#[global] Arguments set_port_has_default v r /.

Record IRBB : Type := Build_IRBB {
  label : string;
  is_entry : bool;
  stmts : list StmtPtr
}.

Definition set_label (v : string) (r : IRBB) : IRBB :=
  Build_IRBB v (is_entry r) (stmts r).
#[global] Arguments set_label v r /.
Definition set_is_entry (v : bool) (r : IRBB) : IRBB :=
  Build_IRBB (label r) v (stmts r).
#[global] Arguments set_is_entry v r /.
Definition set_stmts (v : list StmtPtr) (r : IRBB) : IRBB :=
  Build_IRBB (label r) (is_entry r) v.
#[global] Arguments set_stmts v r /.

Record IRTimeVar : Type := Build_IRTimeVar {
  name : string;
  uses : list StmtPtr
}.

Definition set_name (v : string) (r : IRTimeVar) : IRTimeVar :=
  Build_IRTimeVar v (uses r).
#[global] Arguments set_name v r /.
Definition set_uses (v : list StmtPtr) (r : IRTimeVar) : IRTimeVar :=
  Build_IRTimeVar (name r) v.
#[global] Arguments set_uses v r /.

Record IRProgram : Type := Build_IRProgram {
  bbs : list BBPtr;
  bb_heap : gmap nat IRBB;
  stmt_heap : gmap nat IRStmt;
  entries : list BBPtr;
  timevars : list IRTimeVar;
  timevar_map : gmap string TimeVarPtr;
  next_valnum : Z;
  timing_model : string;
  crosslinked_args_bbs : bool;
  next_bb : nat;
  next_stmt : nat
}.

Definition set_bbs (v : list BBPtr) (r : IRProgram) : IRProgram :=
  Build_IRProgram v (bb_heap r) (stmt_heap r) (entries r) (timevars r) (timevar_map r) (next_valnum r) (timing_model r) (crosslinked_args_bbs r) (next_bb r) (next_stmt r).
#[global] Arguments set_bbs v r /.
Definition set_bb_heap (v : gmap nat IRBB) (r : IRProgram) : IRProgram :=
  Build_IRProgram (bbs r) v (stmt_heap r) (entries r) (timevars r) (timevar_map r) (next_valnum r) (timing_model r) (crosslinked_args_bbs r) (next_bb r) (next_stmt r).
#[global] Arguments set_bb_heap v r /.
Definition set_stmt_heap (v : gmap nat IRStmt) (r : IRProgram) : IRProgram :=
  Build_IRProgram (bbs r) (bb_heap r) v (entries r) (timevars r) (timevar_map r) (next_valnum r) (timing_model r) (crosslinked_args_bbs r) (next_bb r) (next_stmt r).
#[global] Arguments set_stmt_heap v r /.
Definition set_entries (v : list BBPtr) (r : IRProgram) : IRProgram :=
  Build_IRProgram (bbs r) (bb_heap r) (stmt_heap r) v (timevars r) (timevar_map r) (next_valnum r) (timing_model r) (crosslinked_args_bbs r) (next_bb r) (next_stmt r).
#[global] Arguments set_entries v r /.
Definition set_timevars (v : list IRTimeVar) (r : IRProgram) : IRProgram :=
  Build_IRProgram (bbs r) (bb_heap r) (stmt_heap r) (entries r) v (timevar_map r) (next_valnum r) (timing_model r) (crosslinked_args_bbs r) (next_bb r) (next_stmt r).
#[global] Arguments set_timevars v r /.
Definition set_timevar_map (v : gmap string TimeVarPtr) (r : IRProgram) : IRProgram :=
  Build_IRProgram (bbs r) (bb_heap r) (stmt_heap r) (entries r) (timevars r) v (next_valnum r) (timing_model r) (crosslinked_args_bbs r) (next_bb r) (next_stmt r).
#[global] Arguments set_timevar_map v r /.
Definition set_next_valnum (v : Z) (r : IRProgram) : IRProgram :=
  Build_IRProgram (bbs r) (bb_heap r) (stmt_heap r) (entries r) (timevars r) (timevar_map r) v (timing_model r) (crosslinked_args_bbs r) (next_bb r) (next_stmt r).
#[global] Arguments set_next_valnum v r /.
Definition set_timing_model (v : string) (r : IRProgram) : IRProgram :=
  Build_IRProgram (bbs r) (bb_heap r) (stmt_heap r) (entries r) (timevars r) (timevar_map r) (next_valnum r) v (crosslinked_args_bbs r) (next_bb r) (next_stmt r).
#[global] Arguments set_timing_model v r /.
Definition set_crosslinked_args_bbs (v : bool) (r : IRProgram) : IRProgram :=
  Build_IRProgram (bbs r) (bb_heap r) (stmt_heap r) (entries r) (timevars r) (timevar_map r) (next_valnum r) (timing_model r) v (next_bb r) (next_stmt r).
#[global] Arguments set_crosslinked_args_bbs v r /.
Definition set_next_bb (v : nat) (r : IRProgram) : IRProgram :=
  Build_IRProgram (bbs r) (bb_heap r) (stmt_heap r) (entries r) (timevars r) (timevar_map r) (next_valnum r) (timing_model r) (crosslinked_args_bbs r) v (next_stmt r).
#[global] Arguments set_next_bb v r /.
Definition set_next_stmt (v : nat) (r : IRProgram) : IRProgram :=
  Build_IRProgram (bbs r) (bb_heap r) (stmt_heap r) (entries r) (timevars r) (timevar_map r) (next_valnum r) (timing_model r) (crosslinked_args_bbs r) (next_bb r) v.
#[global] Arguments set_next_stmt v r /.

(** A binding overlay, [std::map<ASTStmtLet*, const ASTExpr*>]: sorted by the
    let's address.  The expression a let is bound to is kept as the AST value
    (which carries its own address). *)
Abbreviation SubBindingMap := (list (LetRef * ASTExpr)) (only parsing).

Record LoopFrame : Type := Build_LoopFrame {
  while_label : option string;
  overlay_depth : nat;
  header : option BBPtr;
  footer : option BBPtr;
  in_bb : option BBPtr;
  continue_edges : list (BBPtr * SubBindingMap);
  break_edges : list (BBPtr * SubBindingMap)
}.

Definition set_while_label (v : option string) (r : LoopFrame) : LoopFrame :=
  Build_LoopFrame v (overlay_depth r) (header r) (footer r) (in_bb r) (continue_edges r) (break_edges r).
#[global] Arguments set_while_label v r /.
Definition set_overlay_depth (v : nat) (r : LoopFrame) : LoopFrame :=
  Build_LoopFrame (while_label r) v (header r) (footer r) (in_bb r) (continue_edges r) (break_edges r).
#[global] Arguments set_overlay_depth v r /.
Definition set_header (v : option BBPtr) (r : LoopFrame) : LoopFrame :=
  Build_LoopFrame (while_label r) (overlay_depth r) v (footer r) (in_bb r) (continue_edges r) (break_edges r).
#[global] Arguments set_header v r /.
Definition set_footer (v : option BBPtr) (r : LoopFrame) : LoopFrame :=
  Build_LoopFrame (while_label r) (overlay_depth r) (header r) v (in_bb r) (continue_edges r) (break_edges r).
#[global] Arguments set_footer v r /.
Definition set_in_bb (v : option BBPtr) (r : LoopFrame) : LoopFrame :=
  Build_LoopFrame (while_label r) (overlay_depth r) (header r) (footer r) v (continue_edges r) (break_edges r).
#[global] Arguments set_in_bb v r /.
Definition set_continue_edges (v : list (BBPtr * SubBindingMap)) (r : LoopFrame) : LoopFrame :=
  Build_LoopFrame (while_label r) (overlay_depth r) (header r) (footer r) (in_bb r) v (break_edges r).
#[global] Arguments set_continue_edges v r /.
Definition set_break_edges (v : list (BBPtr * SubBindingMap)) (r : LoopFrame) : LoopFrame :=
  Build_LoopFrame (while_label r) (overlay_depth r) (header r) (footer r) (in_bb r) (continue_edges r) v.
#[global] Arguments set_break_edges v r /.

Record FuncFrame : Type := Build_FuncFrame {
  timing_stack : list TimeVarPtr;
  timing_last_stage : list Z;
  loop_frames : list LoopFrame;
  onkillyoungers : list (list ASTStmt);
  last_curbb : option BBPtr
}.

Definition set_timing_stack (v : list TimeVarPtr) (r : FuncFrame) : FuncFrame :=
  Build_FuncFrame v (timing_last_stage r) (loop_frames r) (onkillyoungers r) (last_curbb r).
#[global] Arguments set_timing_stack v r /.
Definition set_timing_last_stage (v : list Z) (r : FuncFrame) : FuncFrame :=
  Build_FuncFrame (timing_stack r) v (loop_frames r) (onkillyoungers r) (last_curbb r).
#[global] Arguments set_timing_last_stage v r /.
Definition set_loop_frames (v : list LoopFrame) (r : FuncFrame) : FuncFrame :=
  Build_FuncFrame (timing_stack r) (timing_last_stage r) v (onkillyoungers r) (last_curbb r).
#[global] Arguments set_loop_frames v r /.
Definition set_onkillyoungers (v : list (list ASTStmt)) (r : FuncFrame) : FuncFrame :=
  Build_FuncFrame (timing_stack r) (timing_last_stage r) (loop_frames r) v (last_curbb r).
#[global] Arguments set_onkillyoungers v r /.
Definition set_last_curbb (v : option BBPtr) (r : FuncFrame) : FuncFrame :=
  Build_FuncFrame (timing_stack r) (timing_last_stage r) (loop_frames r) (onkillyoungers r) v.
#[global] Arguments set_last_curbb v r /.

Record CodeGenContext : Type := Build_CodeGenContext {
  prog_ : IRProgram;
  gensym_ : Z;
  curbb_ : option BBPtr;
  expr_to_ir_map_ : gmap ExprPtr StmtPtr;
  bindings_ : list SubBindingMap;
  ir_exprs : nat;
  ident_names : gmap ExprPtr string
}.

Definition set_prog_ (v : IRProgram) (r : CodeGenContext) : CodeGenContext :=
  Build_CodeGenContext v (gensym_ r) (curbb_ r) (expr_to_ir_map_ r) (bindings_ r) (ir_exprs r) (ident_names r).
#[global] Arguments set_prog_ v r /.
Definition set_gensym_ (v : Z) (r : CodeGenContext) : CodeGenContext :=
  Build_CodeGenContext (prog_ r) v (curbb_ r) (expr_to_ir_map_ r) (bindings_ r) (ir_exprs r) (ident_names r).
#[global] Arguments set_gensym_ v r /.
Definition set_curbb_ (v : option BBPtr) (r : CodeGenContext) : CodeGenContext :=
  Build_CodeGenContext (prog_ r) (gensym_ r) v (expr_to_ir_map_ r) (bindings_ r) (ir_exprs r) (ident_names r).
#[global] Arguments set_curbb_ v r /.
Definition set_expr_to_ir_map_ (v : gmap ExprPtr StmtPtr) (r : CodeGenContext) : CodeGenContext :=
  Build_CodeGenContext (prog_ r) (gensym_ r) (curbb_ r) v (bindings_ r) (ir_exprs r) (ident_names r).
#[global] Arguments set_expr_to_ir_map_ v r /.
Definition set_bindings_ (v : list SubBindingMap) (r : CodeGenContext) : CodeGenContext :=
  Build_CodeGenContext (prog_ r) (gensym_ r) (curbb_ r) (expr_to_ir_map_ r) v (ir_exprs r) (ident_names r).
#[global] Arguments set_bindings_ v r /.
Definition set_ir_exprs (v : nat) (r : CodeGenContext) : CodeGenContext :=
  Build_CodeGenContext (prog_ r) (gensym_ r) (curbb_ r) (expr_to_ir_map_ r) (bindings_ r) v (ident_names r).
#[global] Arguments set_ir_exprs v r /.
Definition set_ident_names (v : gmap ExprPtr string) (r : CodeGenContext) : CodeGenContext :=
  Build_CodeGenContext (prog_ r) (gensym_ r) (curbb_ r) (expr_to_ir_map_ r) (bindings_ r) (ir_exprs r) v.
#[global] Arguments set_ident_names v r /.

Record CodeGenPass : Type := Build_CodeGenPass {
  ctx_ : CodeGenContext;
  c_ : list FuncFrame;
  errors : list string
}.

Definition set_ctx_ (v : CodeGenContext) (r : CodeGenPass) : CodeGenPass :=
  Build_CodeGenPass v (c_ r) (errors r).
#[global] Arguments set_ctx_ v r /.
Definition set_c_ (v : list FuncFrame) (r : CodeGenPass) : CodeGenPass :=
  Build_CodeGenPass (ctx_ r) v (errors r).
#[global] Arguments set_c_ v r /.
Definition set_errors (v : list string) (r : CodeGenPass) : CodeGenPass :=
  Build_CodeGenPass (ctx_ r) (c_ r) v.
#[global] Arguments set_errors v r /.

(** [CodeGenPass::Result]. *)
Inductive Result : Type := VISIT_CONTINUE | VISIT_TERMINAL | VISIT_END.

#[global] Instance Result_eq_dec : EqDecision Result.
Proof. solve_decision. Defined.

(** ** Sorted association lists for [std::map] and [std::set] *)

Section SortedMap.
Context {K V : Type} (key : K -> nat).

(** [m.insert(make_pair(k, v))]: an existing entry is kept. *)
Fixpoint smap_insert (k : K) (v : V) (m : list (K * V)) : list (K * V) :=
  match m with
  | [] => [(k, v)]
  | (k', v') :: r =>
      if (key k <? key k')%nat then (k, v) :: m
      else if (key k =? key k')%nat then m
      else (k', v') :: smap_insert k v r
  end.

(** [m[k] = v]: an existing entry is overwritten. *)
Fixpoint smap_assign (k : K) (v : V) (m : list (K * V)) : list (K * V) :=
  match m with
  | [] => [(k, v)]
  | (k', v') :: r =>
      if (key k <? key k')%nat then (k, v) :: m
      else if (key k =? key k')%nat then (k', v) :: r
      else (k', v') :: smap_assign k v r
  end.

Fixpoint smap_find (k : K) (m : list (K * V)) : option V :=
  match m with
  | [] => None
  | (k', v') :: r => if (key k =? key k')%nat then Some v' else smap_find k r
  end.
End SortedMap.

(** ** The binding environment *)

(** Modelled from the spec: the class [ASTBindings] behind
    [ctx_->Bindings()] is not under src/.  It is the stack of overlay frames
    of section 3.4: [Push] opens a frame and returns the depth before it as
    the level handle, [PopTo] drops every frame from that level on, [Set]
    writes the top frame, the lookup searches top-down, [Keys] is every let
    bound in some frame, [Overlay] flattens the frames from a level on (later
    frames win), and [JoinOverlays] lists, per let rebound in some overlay,
    one contributor per overlay, taken from the enclosing scope where the
    overlay does not rebind the let. *)
Module Bindings.
Definition Push (b : list SubBindingMap) : nat * list SubBindingMap :=
  (length b, b ++ [[]]).

Definition PopTo (level : nat) (b : list SubBindingMap) : list SubBindingMap :=
  take level b.

Definition Set_ (l : LetRef) (e : ASTExpr) (b : list SubBindingMap)
  : list SubBindingMap :=
  match b with
  | [] => [smap_assign let_ptr l e []]
  | _ => removelast b ++ [smap_assign let_ptr l e (List.last b [])]
  end.

(** [Bindings()[let]]: null when the let is not bound. *)
Definition Get (l : LetRef) (b : list SubBindingMap) : option ASTExpr :=
  foldr (fun f r => match smap_find let_ptr l f with
                    | Some e => Some e
                    | None => r
                    end) None (rev b).

Definition Has (l : LetRef) (b : list SubBindingMap) : bool :=
  bool_decide (is_Some (Get l b)).

Definition keys_of (acc : list (LetRef * unit)) (f : SubBindingMap)
  : list (LetRef * unit) :=
  fold_left (fun a kv => smap_insert let_ptr (fst kv) tt a) f acc.

Definition Keys (b : list SubBindingMap) : list LetRef :=
  map fst (fold_left keys_of b []).

Definition Overlay (level : nat) (b : list SubBindingMap) : SubBindingMap :=
  fold_left (fun acc f =>
               fold_left (fun a kv => smap_assign let_ptr (fst kv) (snd kv) a) f acc)
            (drop level b) [].

Definition JoinOverlays (overlays : list SubBindingMap) (b : list SubBindingMap)
  : list (LetRef * list (option ASTExpr)) :=
  map (fun k =>
         (k, map (fun ov => match smap_find let_ptr k ov with
                            | Some e => Some e
                            | None => Get k b
                            end) overlays))
      (map fst (fold_left keys_of overlays [])).
End Bindings.

(** ** The monad of the code generator *)

Inductive Res (A : Type) : Type :=
  | Ok (a : A) (p : CodeGenPass)
  | Undef
  | NoFuel.
Arguments Ok {A} a p.
Arguments Undef {A}.
Arguments NoFuel {A}.

Definition M (A : Type) : Type := CodeGenPass -> Res A.

Definition ret {A : Type} (a : A) : M A := fun p => Ok a p.

Definition bind {A B : Type} (m : M A) (k : A -> M B) : M B :=
  fun p => match m p with
           | Ok a p' => k a p'
           | Undef => Undef
           | NoFuel => NoFuel
           end.

Notation "x <- m ;; k" := (bind m (fun x => k))
  (at level 20, m at level 99, k at level 200, format "x  <-  m  ;; '//' k").
Notation "'do' m ;; k" := (bind m (fun _ => k))
  (at level 20, m at level 99, k at level 200, format "'do'  m  ;; '//' k").

Definition gets {A : Type} (f : CodeGenPass -> A) : M A := fun p => Ok (f p) p.
Definition modify (f : CodeGenPass -> CodeGenPass) : M unit := fun p => Ok tt (f p).
Definition undef {A : Type} : M A := fun _ => Undef.
Definition nofuel {A : Type} : M A := fun _ => NoFuel.

(** Dereferencing a pointer that may be null. *)
Definition of_option {A : Type} (o : option A) : M A :=
  match o with Some a => ret a | None => undef end.

Definition modify_ctx (f : CodeGenContext -> CodeGenContext) : M unit :=
  modify (fun p => set_ctx_ (f (ctx_ p)) p).
Definition modify_prog (f : IRProgram -> IRProgram) : M unit :=
  modify_ctx (fun c => set_prog_ (f (prog_ c)) c).

(** [ctx_->ir()]. *)
Definition ir (p : CodeGenPass) : IRProgram := prog_ (ctx_ p).

(** Signed [int] arithmetic: overflow is undefined behaviour. *)
Definition INT_MAX : Z := 2147483647.
Definition int_succ (z : Z) : M Z :=
  if decide (z < INT_MAX) then ret (z + 1) else undef.

(** [ErrorCollector::ReportError] through [Error(node, msg)]; the source
    location is not kept. *)
Definition Error (msg : string) : M unit :=
  modify (fun p => set_errors (errors p ++ [msg]) p).

(** ** CodeGenContext *)

(** The state a [CodeGenContext] starts in; the pass starts with one function
    frame and one binding frame. *)
Definition IRProgram_init : IRProgram :=
  Build_IRProgram [] ∅ ∅ [] [] ∅ 1 "" true 0%nat 0%nat.
Definition CodeGenContext_init : CodeGenContext :=
  Build_CodeGenContext IRProgram_init 1 None ∅ [[]] 0%nat ∅.
Definition FuncFrame_init : FuncFrame := Build_FuncFrame [] [] [] [] None.
Definition CodeGenPass_init : CodeGenPass :=
  Build_CodeGenPass CodeGenContext_init [FuncFrame_init] [].

Definition GenSym (prefix : option string) : M string :=
  g <- gets (fun p => gensym_ (ctx_ p)) ;;
  g' <- int_succ g ;;
  do modify_ctx (set_gensym_ g') ;;
  ret (match prefix with
       | None => "__codegen_gensym__"
       | Some pre => pre +:+ "_"
       end +:+ pretty g).

Definition AddBB (label_prefix : option string) : M BBPtr :=
  lbl <- GenSym label_prefix ;;
  b <- gets (fun p => next_bb (ir p)) ;;
  do modify_prog (fun g =>
    set_next_bb (S b)
      (set_bbs (bbs g ++ [b])
         (set_bb_heap (<[b := Build_IRBB lbl false []]> (bb_heap g)) g))) ;;
  ret b.

(** The IR statement that [new IRStmt()] yields.  The constructor is in
    [ir.h], not under src/: the fields start out zero, empty or null. *)
Definition IRStmt_init : IRStmt :=
  Build_IRStmt 0 IRStmtExpr IRStmtOpNone 0 [] [] [] [] 0 false "" None 0 0 false.

(** [new IRStmt()]: a fresh address. *)
Definition new_IRStmt : M StmtPtr :=
  s <- gets (fun p => next_stmt (ir p)) ;;
  do modify_prog (set_next_stmt (S s)) ;;
  ret s.

(** Modelled from the spec: [ctx_->Valnum()] is declared in [codegen.h], not
    under src/.  It hands out the program's next value number and advances
    the counter (sections 3.1 and 6.4). *)
Definition Valnum : M Z :=
  v <- gets (fun p => next_valnum (ir p)) ;;
  v' <- int_succ v ;;
  do modify_prog (set_next_valnum v') ;;
  ret v.

Definition CurBB : M (option BBPtr) := gets (fun p => curbb_ (ctx_ p)).
Definition SetCurBB (bb : option BBPtr) : M unit := modify_ctx (set_curbb_ bb).

(** [ctx_->GetIRStmt(expr)]: [expr_to_ir_map_[expr]], null when absent. *)
Definition GetIRStmt (expr : option ExprPtr) : M (option StmtPtr) :=
  gets (fun p => e ← expr; expr_to_ir_map_ (ctx_ p) !! e).

(** [*ptr] for a basic block and for a statement. *)
Definition deref_bb (bb : option BBPtr) : M IRBB :=
  b <- of_option bb ;;
  o <- gets (fun p => bb_heap (ir p) !! b) ;;
  of_option o.
Definition deref_stmt (s : option StmtPtr) : M IRStmt :=
  q <- of_option s ;;
  o <- gets (fun p => stmt_heap (ir p) !! q) ;;
  of_option o.

(** The two-argument overload of [AddIRStmt]: only the association. *)
Definition AddIRStmt_expr (stmt : option StmtPtr) (expr : ExprPtr) : M unit :=
  modify_ctx (fun c =>
    set_expr_to_ir_map_
      (match stmt with
       | Some q => <[expr := q]> (expr_to_ir_map_ c)
       | None => delete expr (expr_to_ir_map_ c)
       end) c).

(** [CodeGenContext::AddIRStmt(bb, stmt, expr)]; [sp] is the address of the
    statement that [stmt] owns. *)
Definition AddIRStmt (bb : option BBPtr) (sp : StmtPtr) (stmt : IRStmt)
    (expr : option ExprPtr) : M StmtPtr :=
  do match expr with
     | Some e => AddIRStmt_expr (Some sp) e
     | None => ret tt
     end ;;
  nv <- gets (fun p => next_valnum (ir p)) ;;
  do (if decide (valnum stmt >= nv)
      then (v' <- int_succ (valnum stmt) ;; modify_prog (set_next_valnum v'))
      else ret tt) ;;
  b <- of_option bb ;;
  blk <- deref_bb bb ;;
  do modify_prog (fun g =>
    set_bb_heap (<[b := set_stmts (stmts blk ++ [sp]) blk]> (bb_heap g))
      (set_stmt_heap (<[sp := stmt]> (stmt_heap g)) g)) ;;
  ret sp.

Definition AddEntry (bb : BBPtr) : M unit :=
  modify_prog (fun g => set_entries (entries g ++ [bb]) g).

(** Writes through a block pointer: [bb->label = l] and [bb->is_entry = true]. *)
Definition bb_set_label (bb : BBPtr) (l : string) : M unit :=
  blk <- deref_bb (Some bb) ;;
  modify_prog (fun g => set_bb_heap (<[bb := set_label l blk]> (bb_heap g)) g).
Definition bb_set_is_entry (bb : BBPtr) : M unit :=
  blk <- deref_bb (Some bb) ;;
  modify_prog (fun g => set_bb_heap (<[bb := set_is_entry true blk]> (bb_heap g)) g).

(** The timing variables of the program: [timevar_map[name] = timevar],
    [timevars.push_back(timevar)], and the [timing_model] pragma. *)
Definition timevar_map_set (nm : string) (timevar : TimeVarPtr) : M unit :=
  modify_prog (fun g => set_timevar_map (<[nm := timevar]> (timevar_map g)) g).
Definition timevars_push (t : IRTimeVar) : M unit :=
  modify_prog (fun g => set_timevars (timevars g ++ [t]) g).
Definition timing_model_set (value : string) : M unit :=
  modify_prog (set_timing_model value).


(** ** CodeGenPass: the hooks of the lowering *)

(** [c_.back()] and the vectors inside it. *)
Definition c_back : M FuncFrame :=
  fs <- gets c_ ;; of_option (last fs).
Definition modify_c_back (f : FuncFrame -> FuncFrame) : M unit :=
  fr <- c_back ;;
  modify (fun p => set_c_ (removelast (c_ p) ++ [f fr]) p).

Definition Bindings_get : M (list SubBindingMap) :=
  gets (fun p => bindings_ (ctx_ p)).
Definition Bindings_modify (f : list SubBindingMap -> list SubBindingMap) : M unit :=
  modify_ctx (fun c => set_bindings_ (f (bindings_ c)) c).
Definition Bindings_Push : M nat :=
  b <- Bindings_get ;;
  do Bindings_modify (fun _ => snd (Bindings.Push b)) ;;
  ret (fst (Bindings.Push b)).
Definition Bindings_lookup (l : option LetRef) : M (option ASTExpr) :=
  b <- Bindings_get ;;
  ret (k ← l; Bindings.Get k b).

(** [node->ident->name], read through the names the code generator has
    written into the AST so far; a null [ident] cannot be dereferenced. *)
Definition ident_name (e : ASTExpr) : M string :=
  o <- gets (fun p => ident_names (ctx_ p) !! expr_ptr e) ;;
  match o with
  | Some n => ret n
  | None => of_option (expr_ident e)
  end.
Definition set_ident_name (e : ASTExpr) (n : string) : M unit :=
  modify_ctx (fun c => set_ident_names (<[expr_ptr e := n]> (ident_names c)) c).

(** A loop body that may [return]: [Some r] leaves the loop with [r]. *)
Fixpoint for_each {A R : Type} (l : list A) (body : A -> M (option R))
  : M (option R) :=
  match l with
  | [] => ret None
  | x :: r =>
      o <- body x ;;
      match o with
      | Some v => ret (Some v)
      | None => for_each r body
      end
  end.

(** The placeholder expression allocated for a phi node. *)
Definition ASTType_init : ASTType := Build_ASTType 0 false false 0.
Definition new_ASTExpr : M ExprPtr :=
  n <- gets (fun p => ir_exprs (ctx_ p)) ;;
  do modify_ctx (set_ir_exprs (S n)) ;;
  ret (IrExpr n).
Definition phi_placeholder (q : ExprPtr) (t : ASTType) : ASTExpr :=
  MkExpr q NOP [] None 0 false t None None.

Definition ExprTypeToOpType (o : Op) : IRStmtOp :=
  match o with
  | ADD => IRStmtOpAdd
  | SUB => IRStmtOpSub
  | MUL => IRStmtOpMul
  | DIV => IRStmtOpDiv
  | REM => IRStmtOpRem
  | AND => IRStmtOpAnd
  | OR => IRStmtOpOr
  | NOT => IRStmtOpNot
  | XOR => IRStmtOpXor
  | LSH => IRStmtOpLsh
  | RSH => IRStmtOpRsh
  | SEL => IRStmtOpSelect
  | BITSLICE => IRStmtOpBitslice
  | CONCAT => IRStmtOpConcat
  | EQ => IRStmtOpCmpEQ
  | NE => IRStmtOpCmpNE
  | LE => IRStmtOpCmpLE
  | LT => IRStmtOpCmpLT
  | GE => IRStmtOpCmpGE
  | GT => IRStmtOpCmpGT
  | _ => IRStmtOpNone
  end.

(** [VerifyNoSideEffects(expr, coll)], on the collector's list of messages. *)
Definition kill_if_side_effect_msg : string :=
  "Expression contains a potential side-effect (possibly a function call or a statement-block expression or an array read), which is not allowed in a kill-if condition. Such conditions may only contain simple port/chan reads, variable references, and computations on those values.".

Fixpoint VerifyNoSideEffects (expr : ASTExpr) (coll : list string)
  : bool * list string :=
  match expr with
  | MkExpr _ o operands _ _ _ _ _ _ =>
      if bool_decide (o = STMTBLOCK \/ o = ARRAY_REF)
      then (false, coll ++ [kill_if_side_effect_msg])
      else
        (fix each (l : list ASTExpr) (coll : list string) : bool * list string :=
           match l with
           | [] => (true, coll)
           | x :: r =>
               let '(ok, coll') := VerifyNoSideEffects x coll in
               if ok then each r coll' else (false, coll')
           end) operands coll
  end.

Section Hooks.
(** The visitor's entry points that the hooks call ([ASTVisitor visitor;
    visitor.ModifyASTExpr(node, this)] and so on). *)
Variable ModifyASTExpr : ASTExpr -> M bool.
Variable ModifyASTStmt : ASTStmt -> M bool.
Variable ModifyASTStmtBlock : list ASTStmt -> M bool.
(** The address of a basic block: [std::map<IRBB*, ...>] is ordered by it. *)
Variable bb_addr : BBPtr -> nat.
(** [kIRStmtWidthTxnID], a constant of [ir.h]. *)
Variable kIRStmtWidthTxnID : Z.
(** The bound on the depth of [FindEntityDef]'s recursion. *)
Variable depth : nat.

Definition ModifyASTFunctionDefPre (node : ASTFunctionDef) : M Result :=
  if negb (fn_is_entry node) then ret VISIT_TERMINAL
  else
    bb <- AddBB None ;;
    do bb_set_label bb (fn_name node) ;;
    do bb_set_is_entry bb ;;
    do AddEntry bb ;;
    do SetCurBB (Some bb) ;;
    ret VISIT_CONTINUE.

Definition ModifyASTFunctionDefPost (node : ASTFunctionDef) : M Result :=
  do (if fn_is_entry node then
        done_stmt <- new_IRStmt ;;
        v <- Valnum ;;
        cur <- CurBB ;;
        _ <- AddIRStmt cur done_stmt
               (set_type IRStmtDone (set_valnum v IRStmt_init)) None ;;
        ret tt
      else ret tt) ;;
  ret VISIT_CONTINUE.

Definition ModifyASTStmtLetPost (l : LetRef) (rhs : ASTExpr) : M Result :=
  do Bindings_modify (Bindings.Set_ l rhs) ;;
  ret VISIT_CONTINUE.

Definition ModifyASTStmtAssignPre (lhs rhs : ASTExpr) : M Result :=
  ok <- ModifyASTExpr rhs ;;
  if negb ok then ret VISIT_END else ret VISIT_TERMINAL.

Fixpoint FindEntityDef_rec (fuel : nat) (node : option ASTExpr) (def_type : Op)
  : M (option ASTExpr) :=
  match fuel with
  | O => nofuel
  | S fuel' =>
      nd <- of_option node ;;
      if decide (expr_op nd = def_type) then ret (Some nd)
      else if decide (expr_op nd = VAR) then
        binding <- Bindings_lookup (expr_def nd) ;;
        FindEntityDef_rec fuel' binding def_type
      else
        do Error "Port/array/reg value expected but cannot trace back to def statically." ;;
        ret None
  end.

Definition FindEntityDef (node : ASTExpr) (def_type : Op) : M (option ASTExpr) :=
  FindEntityDef_rec depth (Some node) def_type.

(** [args.push_back(a); arg_nums.push_back(a->valnum)]. *)
Definition push_arg (a : option StmtPtr) (s : IRStmt) : M IRStmt :=
  q <- of_option a ;;
  pointee <- deref_stmt a ;;
  ret (set_arg_nums (arg_nums s ++ [valnum pointee]) (set_args (args s ++ [q]) s)).

(** [targets.push_back(bb); target_names.push_back(bb->label)]. *)
Definition push_target (bb : option BBPtr) (s : IRStmt) : M IRStmt :=
  b <- of_option bb ;;
  blk <- deref_bb bb ;;
  ret (set_target_names (target_names s ++ [label blk])
         (set_targets (targets s ++ [b]) s)).

Definition ModifyASTStmtAssignPost (lhs rhs : ASTExpr) : M Result :=
  if decide (expr_op lhs = VAR) then
    l <- of_option (expr_def lhs) ;;
    do Bindings_modify (Bindings.Set_ l rhs) ;;
    ret VISIT_CONTINUE
  else if decide (expr_op lhs = REG_REF) then
    op0 <- of_option (expr_ops lhs !! 0%nat) ;;
    regdef <- FindEntityDef op0 REG_INIT ;;
    match regdef with
    | None => ret VISIT_END
    | Some regdef =>
        reg_write <- new_IRStmt ;;
        v <- Valnum ;;
        nm <- ident_name regdef ;;
        let s := set_width (ty_width (inferred_type regdef))
                   (set_port_name nm
                      (set_type IRStmtRegWrite (set_valnum v IRStmt_init))) in
        value <- GetIRStmt (Some (expr_ptr rhs)) ;;
        s <- push_arg value s ;;
        cur <- CurBB ;;
        _ <- AddIRStmt cur reg_write s None ;;
        ret VISIT_CONTINUE
    end
  else if decide (expr_op lhs = ARRAY_REF) then
    op0 <- of_option (expr_ops lhs !! 0%nat) ;;
    arraydef <- FindEntityDef op0 ARRAY_INIT ;;
    match arraydef with
    | None => ret VISIT_END
    | Some arraydef =>
        array_write <- new_IRStmt ;;
        v <- Valnum ;;
        nm <- ident_name arraydef ;;
        let s := set_port_name nm
                   (set_width (ty_width (inferred_type rhs))
                      (set_type IRStmtArrayWrite (set_valnum v IRStmt_init))) in
        op1 <- of_option (expr_ops lhs !! 1%nat) ;;
        ok <- ModifyASTExpr op1 ;;
        if negb ok then ret VISIT_END
        else
          index_arg <- GetIRStmt (Some (expr_ptr op1)) ;;
          value <- GetIRStmt (Some (expr_ptr rhs)) ;;
          s <- push_arg index_arg s ;;
          s <- push_arg value s ;;
          cur <- CurBB ;;
          _ <- AddIRStmt cur array_write s None ;;
          ret VISIT_CONTINUE
    end
  else if decide (expr_op lhs = FIELD_REF) then
    undef
  else
    do Error "Cannot assign to non-variable, non-array-slot, non-field-slot lvalue." ;;
    ret VISIT_END.

Definition ModifyASTStmtWritePost (port rhs : ASTExpr) : M Result :=
  write_stmt <- new_IRStmt ;;
  v <- Valnum ;;
  let s := set_valnum v IRStmt_init in
  portdef <- FindEntityDef port PORTDEF ;;
  match portdef with
  | None => ret VISIT_END
  | Some portdef =>
      s <- (if is_port (inferred_type portdef) then ret (set_type IRStmtPortWrite s)
            else if is_chan (inferred_type portdef) then ret (set_type IRStmtChanWrite s)
            else (do Error "Write to something not a port or chan" ;; ret s)) ;;
      nm <- ident_name portdef ;;
      let s := set_port_name nm s in
      val <- GetIRStmt (Some (expr_ptr rhs)) ;;
      s <- push_arg val s ;;
      let s := set_width (ty_width (inferred_type rhs)) s in
      let s := set_port_default (expr_constant portdef) s in
      let s := set_port_has_default (expr_has_constant portdef) s in
      cur <- CurBB ;;
      _ <- AddIRStmt cur write_stmt s None ;;
      ret VISIT_CONTINUE
  end.

Definition ModifyASTStmtKillPost : M Result :=
  stmt <- new_IRStmt ;;
  v <- Valnum ;;
  cur <- CurBB ;;
  _ <- AddIRStmt cur stmt (set_type IRStmtKill (set_valnum v IRStmt_init)) None ;;
  ret VISIT_CONTINUE.

(** The range-for over [c_.back().onkillyoungers]: a block that registers
    another one while the vector is being iterated invalidates the
    iterators. *)
Definition ModifyASTStmtKillYoungerPost : M Result :=
  stmt <- new_IRStmt ;;
  v <- Valnum ;;
  cur <- CurBB ;;
  _ <- AddIRStmt cur stmt
         (set_type IRStmtKillYounger (set_valnum v IRStmt_init)) None ;;
  fr <- c_back ;;
  r <- for_each (onkillyoungers fr) (fun body =>
         ok <- ModifyASTStmtBlock body ;;
         if negb ok then ret (Some VISIT_TERMINAL)
         else
           fr' <- c_back ;;
           if decide (length (onkillyoungers fr') = length (onkillyoungers fr))
           then ret None else undef) ;;
  match r with
  | Some res => ret res
  | None => ret VISIT_CONTINUE
  end.

Definition ModifyASTStmtKillIfPost (condition : ASTExpr) : M Result :=
  coll <- gets errors ;;
  let '(ok, coll') := VerifyNoSideEffects condition coll in
  do modify (set_errors coll') ;;
  if negb ok then ret VISIT_END
  else
    stmt <- new_IRStmt ;;
    v <- Valnum ;;
    let s := set_type IRStmtKillIf (set_valnum v IRStmt_init) in
    cond <- GetIRStmt (Some (expr_ptr condition)) ;;
    s <- push_arg cond s ;;
    cur <- CurBB ;;
    _ <- AddIRStmt cur stmt s None ;;
    ret VISIT_CONTINUE.

(** [timevar->uses.push_back(stmt)]. *)
Definition timevar_add_use (tv : TimeVarPtr) (stmt : StmtPtr) : M unit :=
  o <- gets (fun p => timevars (ir p) !! tv) ;;
  t <- of_option o ;;
  modify_prog (fun g =>
    set_timevars (<[tv := set_uses (uses t ++ [stmt]) t]> (timevars g)) g).

Definition ModifyASTStmtTimingPre : M Result :=
  nm <- GenSym (Some "timing") ;;
  timevar <- gets (fun p => length (timevars (ir p))) ;;
  do timevar_map_set nm timevar ;;
  do modify_c_back (fun fr =>
       set_timing_last_stage (timing_last_stage fr ++ [0])
         (set_timing_stack (timing_stack fr ++ [timevar]) fr)) ;;
  timing_barrier <- new_IRStmt ;;
  v <- Valnum ;;
  let s := set_time_offset 0
             (set_timevar (Some timevar)
                (set_type IRStmtTimingBarrier (set_valnum v IRStmt_init))) in
  cur <- CurBB ;;
  _ <- AddIRStmt cur timing_barrier s None ;;
  do timevars_push (Build_IRTimeVar nm [timing_barrier]) ;;
  ret VISIT_CONTINUE.

Definition ModifyASTStmtTimingPost : M Result :=
  timing_barrier <- new_IRStmt ;;
  v <- Valnum ;;
  fr <- c_back ;;
  timevar <- of_option (last (timing_stack fr)) ;;
  do timevar_add_use timevar timing_barrier ;;
  last_stage <- of_option (last (timing_last_stage fr)) ;;
  let s := set_time_offset last_stage
             (set_timevar (Some timevar)
                (set_type IRStmtTimingBarrier (set_valnum v IRStmt_init))) in
  cur <- CurBB ;;
  _ <- AddIRStmt cur timing_barrier s None ;;
  do modify_c_back (fun fr =>
       set_timing_last_stage (removelast (timing_last_stage fr))
         (set_timing_stack (removelast (timing_stack fr)) fr)) ;;
  ret VISIT_CONTINUE.

Definition ModifyASTStmtStagePost (offset : Z) : M Result :=
  fr <- c_back ;;
  if bool_decide (timing_stack fr = []) then
    do Error "'stage' statement appears outside of a timing {} block. Staging barriers can occur only inside the context of a timing {} block." ;;
    ret VISIT_END
  else
    timevar <- of_option (last (timing_stack fr)) ;;
    last_stage <- of_option (last (timing_last_stage fr)) ;;
    late_timing_barrier <- new_IRStmt ;;
    v <- Valnum ;;
    do timevar_add_use timevar late_timing_barrier ;;
    let late := set_time_offset last_stage
                  (set_timevar (Some timevar)
                     (set_type IRStmtTimingBarrier (set_valnum v IRStmt_init))) in
    cur <- CurBB ;;
    _ <- AddIRStmt cur late_timing_barrier late None ;;
    early_timing_barrier <- new_IRStmt ;;
    v <- Valnum ;;
    do timevar_add_use timevar early_timing_barrier ;;
    let early := set_time_offset offset
                   (set_timevar (Some timevar)
                      (set_type IRStmtTimingBarrier (set_valnum v IRStmt_init))) in
    do modify_c_back (fun fr =>
         set_timing_last_stage (removelast (timing_last_stage fr) ++ [offset]) fr) ;;
    cur <- CurBB ;;
    _ <- AddIRStmt cur early_timing_barrier early None ;;
    ret VISIT_CONTINUE.

Definition ModifyASTExprPost (node : ASTExpr) : M Result :=
  let o := ExprTypeToOpType (expr_op node) in
  if negb (bool_decide (o = IRStmtOpNone)) then
    stmt <- new_IRStmt ;;
    v <- Valnum ;;
    let s := set_width (ty_width (inferred_type node))
               (set_op o (set_type IRStmtExpr (set_valnum v IRStmt_init))) in
    s <- fold_left (fun (acc : M IRStmt) operand =>
                      s <- acc ;;
                      op_stmt <- GetIRStmt (Some (expr_ptr operand)) ;;
                      push_arg op_stmt s)
                   (expr_ops node) (ret s) ;;
    cur <- CurBB ;;
    _ <- AddIRStmt cur stmt s (Some (expr_ptr node)) ;;
    ret VISIT_CONTINUE
  else
    match expr_op node with
    | CONST =>
        stmt <- new_IRStmt ;;
        v <- Valnum ;;
        let s := set_width (ty_width (inferred_type node))
                   (set_has_constant true
                      (set_constant (expr_constant node)
                         (set_valnum v
                            (set_op IRStmtOpConst
                               (set_type IRStmtExpr IRStmt_init))))) in
        cur <- CurBB ;;
        _ <- AddIRStmt cur stmt s (Some (expr_ptr node)) ;;
        ret VISIT_CONTINUE
    | VAR =>
        expr <- Bindings_lookup (expr_def node) ;;
        ir_stmt <- GetIRStmt (expr_ptr <$> expr) ;;
        do match ir_stmt with
           | Some q => AddIRStmt_expr (Some q) (expr_ptr node)
           | None => ret tt
           end ;;
        ret VISIT_CONTINUE
    | PORTDEF =>
        nm <- ident_name node ;;
        if negb (bool_decide (nm = "")) then
          if is_chan (inferred_type node) then
            do Error "Cannot use a defined name on a chan: chans must be anonymous." ;;
            ret VISIT_END
          else
            export_stmt <- new_IRStmt ;;
            v <- Valnum ;;
            let s := set_width (ty_width (inferred_type node))
                       (set_port_name nm
                          (set_type IRStmtPortExport (set_valnum v IRStmt_init))) in
            cur <- CurBB ;;
            _ <- AddIRStmt cur export_stmt s None ;;
            ret VISIT_CONTINUE
        else
          sym <- GenSym None ;;
          do set_ident_name node sym ;;
          ret VISIT_CONTINUE
    | PORTREAD =>
        op0 <- of_option (expr_ops node !! 0%nat) ;;
        portdef <- FindEntityDef op0 PORTDEF ;;
        match portdef with
        | None => ret VISIT_END
        | Some portdef =>
            read_stmt <- new_IRStmt ;;
            v <- Valnum ;;
            let s := set_valnum v IRStmt_init in
            s <- (if is_port (inferred_type portdef)
                  then ret (set_type IRStmtPortRead s)
                  else if is_chan (inferred_type portdef)
                  then ret (set_type IRStmtChanRead s)
                  else (do Error "Read from something not a port or chan" ;; ret s)) ;;
            nm <- ident_name portdef ;;
            let s := set_width (ty_width (inferred_type portdef))
                       (set_port_name nm s) in
            cur <- CurBB ;;
            _ <- AddIRStmt cur read_stmt s (Some (expr_ptr node)) ;;
            ret VISIT_CONTINUE
        end
    | ARRAY_INIT =>
        sym <- GenSym (Some "array") ;;
        do set_ident_name node sym ;;
        array_def <- new_IRStmt ;;
        v <- Valnum ;;
        let s := set_constant (array_size (inferred_type node))
                   (set_port_name sym
                      (set_type IRStmtArraySize (set_valnum v IRStmt_init))) in
        cur <- CurBB ;;
        _ <- AddIRStmt cur array_def s None ;;
        ret VISIT_CONTINUE
    | ARRAY_REF =>
        op0 <- of_option (expr_ops node !! 0%nat) ;;
        arraydef <- FindEntityDef op0 ARRAY_INIT ;;
        match arraydef with
        | None => ret VISIT_END
        | Some arraydef =>
            array_read <- new_IRStmt ;;
            v <- Valnum ;;
            let s := set_width (ty_width (inferred_type node))
                       (set_type IRStmtArrayRead (set_valnum v IRStmt_init)) in
            op1 <- of_option (expr_ops node !! 1%nat) ;;
            index_arg <- GetIRStmt (Some (expr_ptr op1)) ;;
            s <- push_arg index_arg s ;;
            nm <- ident_name arraydef ;;
            cur <- CurBB ;;
            _ <- AddIRStmt cur array_read (set_port_name nm s)
                   (Some (expr_ptr node)) ;;
            ret VISIT_CONTINUE
        end
    | REG_INIT =>
        sym <- GenSym (Some "reg") ;;
        do set_ident_name node sym ;;
        ret VISIT_CONTINUE
    | REG_REF =>
        op0 <- of_option (expr_ops node !! 0%nat) ;;
        regdef <- FindEntityDef op0 REG_INIT ;;
        match regdef with
        | None => ret VISIT_END
        | Some regdef =>
            reg_read <- new_IRStmt ;;
            v <- Valnum ;;
            nm <- ident_name regdef ;;
            let s := set_port_name nm
                       (set_width (ty_width (inferred_type node))
                          (set_type IRStmtRegRead (set_valnum v IRStmt_init))) in
            cur <- CurBB ;;
            _ <- AddIRStmt cur reg_read s (Some (expr_ptr node)) ;;
            ret VISIT_CONTINUE
        end
    | BYPASSDEF =>
        sym <- GenSym (Some "bypass") ;;
        do set_ident_name node sym ;;
        ret VISIT_CONTINUE
    | BYPASSPRESENT | BYPASSREADY | BYPASSREAD =>
        op0 <- of_option (expr_ops node !! 0%nat) ;;
        bypassdef <- FindEntityDef op0 BYPASSDEF ;;
        match bypassdef with
        | None => ret VISIT_END
        | Some bypassdef =>
            bypassop <- new_IRStmt ;;
            let s := set_type (match expr_op node with
                               | BYPASSPRESENT => IRStmtBypassPresent
                               | BYPASSREADY => IRStmtBypassReady
                               | _ => IRStmtBypassRead
                               end) IRStmt_init in
            v <- Valnum ;;
            nm <- ident_name bypassdef ;;
            let s := set_port_name nm
                       (set_width (ty_width (inferred_type node))
                          (set_valnum v s)) in
            op1 <- of_option (expr_ops node !! 1%nat) ;;
            index_arg <- GetIRStmt (Some (expr_ptr op1)) ;;
            s <- push_arg index_arg s ;;
            cur <- CurBB ;;
            _ <- AddIRStmt cur bypassop s (Some (expr_ptr node)) ;;
            ret VISIT_CONTINUE
        end
    | STMTBLOCK =>
        blk <- of_option (expr_stmt node) ;;
        match last blk with
        | Some (StmtExpr e) =>
            value <- GetIRStmt (Some (expr_ptr e)) ;;
            do AddIRStmt_expr value (expr_ptr node) ;;
            ret VISIT_CONTINUE
        | _ =>
            do Error "Statement-block expr where last stmt is not an expression statement." ;;
            ret VISIT_END
        end
    | CAST =>
        op0 <- of_option (expr_ops node !! 0%nat) ;;
        value <- GetIRStmt (Some (expr_ptr op0)) ;;
        do AddIRStmt_expr value (expr_ptr node) ;;
        ret VISIT_CONTINUE
    | _ =>
        (* Error(...); assert(false); *)
        undef
    end.

Definition ModifyASTStmtExprPost : M Result := ret VISIT_CONTINUE.

Definition ModifyASTStmtNestedFuncPre (body : list ASTStmt) : M Result :=
  cur <- CurBB ;;
  do modify (fun p => set_c_ (c_ p ++ [set_last_curbb cur FuncFrame_init]) p) ;;
  entry <- AddBB (Some "anon_func") ;;
  do bb_set_is_entry entry ;;
  do AddEntry entry ;;
  do SetCurBB (Some entry) ;;
  ok <- ModifyASTStmtBlock body ;;
  if negb ok then ret VISIT_END
  else
    done_stmt <- new_IRStmt ;;
    v <- Valnum ;;
    cur' <- CurBB ;;
    _ <- AddIRStmt cur' done_stmt
           (set_type IRStmtDone (set_valnum v IRStmt_init)) None ;;
    fr <- c_back ;;
    do SetCurBB (last_curbb fr) ;;
    do modify (fun p => set_c_ (removelast (c_ p)) p) ;;
    ret VISIT_TERMINAL.

(** [CloneAST] copies the block; the copy is the only one of the two that
    is ever lowered, so it keeps the node addresses of the original here. *)
Definition CloneAST (body : list ASTStmt) : list ASTStmt := body.

Definition ModifyASTStmtOnKillYoungerPre (body : list ASTStmt) : M Result :=
  let clone := CloneAST body in
  do modify_c_back (fun fr => set_onkillyoungers (onkillyoungers fr ++ [clone]) fr) ;;
  ret VISIT_TERMINAL.

Definition ModifyASTStmtBypassStartPost (bypass index : ASTExpr) : M Result :=
  bypass_stmt <- new_IRStmt ;;
  v <- Valnum ;;
  bypassdef <- FindEntityDef bypass BYPASSDEF ;;
  match bypassdef with
  | None => ret VISIT_END
  | Some bypassdef =>
      nm <- ident_name bypassdef ;;
      let s := set_port_name nm
                 (set_type IRStmtBypassStart (set_valnum v IRStmt_init)) in
      index_arg <- GetIRStmt (Some (expr_ptr index)) ;;
      s <- push_arg index_arg s ;;
      cur <- CurBB ;;
      _ <- AddIRStmt cur bypass_stmt s None ;;
      ret VISIT_CONTINUE
  end.

Definition ModifyASTStmtBypassEndPost (bypass : ASTExpr) : M Result :=
  bypass_stmt <- new_IRStmt ;;
  v <- Valnum ;;
  bypassdef <- FindEntityDef bypass BYPASSDEF ;;
  match bypassdef with
  | None => ret VISIT_END
  | Some bypassdef =>
      nm <- ident_name bypassdef ;;
      let s := set_port_name nm
                 (set_type IRStmtBypassEnd (set_valnum v IRStmt_init)) in
      cur <- CurBB ;;
      _ <- AddIRStmt cur bypass_stmt s None ;;
      ret VISIT_CONTINUE
  end.

Definition ModifyASTStmtBypassWritePost (bypass value : ASTExpr) : M Result :=
  bypass_stmt <- new_IRStmt ;;
  v <- Valnum ;;
  bypassdef <- FindEntityDef bypass BYPASSDEF ;;
  match bypassdef with
  | None => ret VISIT_END
  | Some bypassdef =>
      nm <- ident_name bypassdef ;;
      let s := set_port_name nm
                 (set_type IRStmtBypassWrite (set_valnum v IRStmt_init)) in
      value_arg <- GetIRStmt (Some (expr_ptr value)) ;;
      s <- push_arg value_arg s ;;
      pointee <- deref_stmt value_arg ;;
      cur <- CurBB ;;
      _ <- AddIRStmt cur bypass_stmt (set_width (width pointee) s) None ;;
      ret VISIT_CONTINUE
  end.

Definition ModifyASTPragmaPost (key value : string) : M Result :=
  do (if decide (key = "timing_model")
      then timing_model_set value
      else ret tt) ;;
  ret VISIT_CONTINUE.

(** *** If/else *)

(** The body of the loop of [ModifyASTStmtIfPre] over [phi_map]: the phi
    of one let. *)
Definition IfElsePhi (if_end else_end : option BBPtr) (merge_bb : BBPtr)
    (p : LetRef * list (option ASTExpr)) : M (option Result) :=
  let l := fst p in
  let sub_bindings := snd p in
  sub0 <- of_option (sub_bindings !! 0%nat) ;;
  sub1 <- of_option (sub_bindings !! 1%nat) ;;
  if_val <- GetIRStmt (expr_ptr <$> sub0) ;;
  else_val <- GetIRStmt (expr_ptr <$> sub1) ;;
  if bool_decide (if_val = None \/ else_val = None) then
    do Error "If/else reassigns value without underlying IR representation. This usually occurs when attempting to reassign port variables." ;;
    ret (Some VISIT_END)
  else
    phi_node <- new_IRStmt ;;
    v <- Valnum ;;
    pointee <- deref_stmt if_val ;;
    let s := set_width (width pointee)
               (set_valnum v (set_type IRStmtPhi IRStmt_init)) in
    s <- push_arg if_val s ;;
    s <- push_arg else_val s ;;
    s <- push_target if_end s ;;
    s <- push_target else_end s ;;
    new_node <- AddIRStmt (Some merge_bb) phi_node s None ;;
    phi_expr <- new_ASTExpr ;;
    e0 <- of_option sub0 ;;
    do AddIRStmt_expr (Some new_node) phi_expr ;;
    do Bindings_modify
         (Bindings.Set_ l (phi_placeholder phi_expr (inferred_type e0))) ;;
    ret None.

(** The start of the second half of [ModifyASTStmtIfPre], from "Generate
    the merge point" on: the merge block and the two jumps into it. *)
Definition IfElseJoin (if_end else_end : option BBPtr) : M BBPtr :=
  merge_bb <- AddBB (Some "if_else_merge") ;;
  do SetCurBB (Some merge_bb) ;;
  if_end_jmp <- new_IRStmt ;;
  v <- Valnum ;;
  s <- push_target (Some merge_bb) (set_type IRStmtJmp (set_valnum v IRStmt_init)) ;;
  _ <- AddIRStmt if_end if_end_jmp s None ;;
  else_end_jmp <- new_IRStmt ;;
  v <- Valnum ;;
  s <- push_target (Some merge_bb) (set_type IRStmtJmp (set_valnum v IRStmt_init)) ;;
  _ <- AddIRStmt else_end else_end_jmp s None ;;
  ret merge_bb.

(** The second half of [ModifyASTStmtIfPre]: the merge block, the jumps
    and the phis of the lets that either side rebinds. *)
Definition IfElseMerge (if_bindings else_bindings : SubBindingMap)
    (if_end else_end : option BBPtr) : M Result :=
  merge_bb <- IfElseJoin if_end else_end ;;
  b <- Bindings_get ;;
  let phi_map := Bindings.JoinOverlays [if_bindings; else_bindings] b in
  r <- for_each phi_map (IfElsePhi if_end else_end merge_bb) ;;
  match r with
  | Some res => ret res
  | None => ret VISIT_TERMINAL
  end.

Definition ModifyASTStmtIfPre (condition : ASTExpr) (if_body : ASTStmt)
    (else_body : option ASTStmt) : M Result :=
  if_body_bb <- AddBB (Some "if_body") ;;
  else_body_bb <- AddBB (Some "else_body") ;;
  ok <- ModifyASTExpr condition ;;
  if negb ok then ret VISIT_END
  else
    conditional <- GetIRStmt (Some (expr_ptr condition)) ;;
    cond_br <- new_IRStmt ;;
    v <- Valnum ;;
    s <- push_arg conditional (set_type IRStmtIf (set_valnum v IRStmt_init)) ;;
    s <- push_target (Some if_body_bb) s ;;
    s <- push_target (Some else_body_bb) s ;;
    cur <- CurBB ;;
    _ <- AddIRStmt cur cond_br s None ;;
    level <- Bindings_Push ;;
    do SetCurBB (Some if_body_bb) ;;
    ok <- ModifyASTStmt if_body ;;
    if negb ok then ret VISIT_END
    else
      b <- Bindings_get ;;
      let if_bindings := Bindings.Overlay level b in
      do Bindings_modify (Bindings.PopTo level) ;;
      if_end <- CurBB ;;
      level <- Bindings_Push ;;
      do SetCurBB (Some else_body_bb) ;;
      ok <- match else_body with
            | Some eb => ModifyASTStmt eb
            | None => ret true
            end ;;
      if negb ok then ret VISIT_END
      else
        b <- Bindings_get ;;
        let else_bindings := Bindings.Overlay level b in
        do Bindings_modify (Bindings.PopTo level) ;;
        else_end <- CurBB ;;
        IfElseMerge if_bindings else_bindings if_end else_end.

(** *** While, break, continue *)

Definition LoopFrame_init : LoopFrame :=
  Build_LoopFrame None 0%nat None None None [] [].

Definition loop_at (i : nat) : M LoopFrame :=
  fr <- c_back ;; of_option (loop_frames fr !! i).
Definition modify_loop_at (i : nat) (f : LoopFrame -> LoopFrame) : M unit :=
  fr <- c_back ;;
  lf <- of_option (loop_frames fr !! i) ;;
  modify_c_back (set_loop_frames (<[i := f lf]> (loop_frames fr))).
(** [c_.back().loop_frames.back()]. *)
Definition loop_back : M LoopFrame :=
  fr <- c_back ;; of_option (last (loop_frames fr)).
Definition modify_loop_back (f : LoopFrame -> LoopFrame) : M unit :=
  fr <- c_back ;;
  modify_loop_at (pred (length (loop_frames fr))) f.

(** One round of the innermost loop of [AddWhileLoopPhiNodeInputs]: the
    phi at [phi_node] gets the input [in_val] from the block [in_bb]. *)
Definition phi_add_input (phi_node : StmtPtr) (in_val : option StmtPtr)
    (in_bb : BBPtr) : M unit :=
  s <- deref_stmt (Some phi_node) ;;
  s <- push_arg in_val s ;;
  s <- push_target (Some in_bb) s ;;
  pointee <- deref_stmt in_val ;;
  modify_prog (fun g =>
    set_stmt_heap (<[phi_node := set_width (width pointee) s]> (stmt_heap g)) g).

Definition AddWhileLoopPhiNodeInputs
    (binding_phis : option (list (LetRef * StmtPtr)))
    (binding_phi_bb : option BBPtr)
    (in_edges : list (BBPtr * SubBindingMap)) : M bool :=
  let in_bbs := map fst in_edges in
  let in_maps := map snd in_edges in
  b <- Bindings_get ;;
  let join := Bindings.JoinOverlays in_maps b in
  r <- for_each join (fun p =>
         let l := fst p in
         let exprs := snd p in
         phi_node <- match binding_phis with
                     | Some phis => ret (smap_find let_ptr l phis)
                     | None =>
                         new_phi_node <- new_IRStmt ;;
                         v <- Valnum ;;
                         phi_node_expr <- new_ASTExpr ;;
                         do Bindings_modify
                              (Bindings.Set_ l
                                 (phi_placeholder phi_node_expr (let_inferred_type l))) ;;
                         _ <- AddIRStmt binding_phi_bb new_phi_node
                                (set_type IRStmtPhi (set_valnum v IRStmt_init))
                                (Some phi_node_expr) ;;
                         ret (Some new_phi_node)
                     end ;;
         match phi_node with
         | None =>
             do Error "Attempt to reassign a value without an IR representation inside a while loop. This usually occurs when attempting to reassign port variables." ;;
             ret (Some false)
         | Some phi_node =>
             for_each (zip exprs in_bbs) (fun ei =>
               in_val <- GetIRStmt (expr_ptr <$> fst ei) ;;
               do phi_add_input phi_node in_val (snd ei) ;;
               ret None)
         end) ;;
  match r with
  | Some res => ret res
  | None => ret true
  end.

(** The loop of [ModifyASTStmtWhilePre] that emits the placeholder phis
    of the header, one per let of [bindings]; it returns [binding_phis]. *)
Fixpoint WhileHeaderPhis (frame_in_bb frame_header : option BBPtr)
    (bindings : list LetRef) (binding_phis : list (LetRef * StmtPtr))
  : M (list (LetRef * StmtPtr)) :=
  match bindings with
  | [] => ret binding_phis
  | l :: rest =>
      b <- Bindings_get ;;
      if negb (Bindings.Has l b) then
        WhileHeaderPhis frame_in_bb frame_header rest binding_phis
      else
        binding <- Bindings_lookup (Some l) ;;
        binding_ir <- GetIRStmt (expr_ptr <$> binding) ;;
        match binding_ir with
        | None => WhileHeaderPhis frame_in_bb frame_header rest binding_phis
        | Some _ =>
            phi_node <- new_IRStmt ;;
            v <- Valnum ;;
            pointee <- deref_stmt binding_ir ;;
            let s := set_width (width pointee)
                       (set_valnum v (set_type IRStmtPhi IRStmt_init)) in
            s <- push_target frame_in_bb s ;;
            s <- push_arg binding_ir s ;;
            ast_expr <- new_ASTExpr ;;
            _ <- AddIRStmt frame_header phi_node s (Some ast_expr) ;;
            do Bindings_modify
                 (Bindings.Set_ l (phi_placeholder ast_expr ASTType_init)) ;;
            WhileHeaderPhis frame_in_bb frame_header rest
              (smap_assign let_ptr l phi_node binding_phis)
        end
  end.

Definition ModifyASTStmtWhilePre (lbl : option string) (condition : ASTExpr)
    (body : ASTStmt) : M Result :=
  do modify_c_back (fun fr =>
       set_loop_frames (loop_frames fr ++ [set_while_label lbl LoopFrame_init]) fr) ;;
  level <- Bindings_Push ;;
  do modify_loop_back (set_overlay_depth level) ;;
  let bb_name_prefix := match lbl with
                        | Some l => l +:+ "_"
                        | None => "while_"
                        end in
  hd <- AddBB (Some (bb_name_prefix +:+ "header")) ;;
  do modify_loop_back (set_header (Some hd)) ;;
  ft <- AddBB (Some (bb_name_prefix +:+ "footer")) ;;
  do modify_loop_back (set_footer (Some ft)) ;;
  cur <- CurBB ;;
  do modify_loop_back (set_in_bb cur) ;;
  in_jmp <- new_IRStmt ;;
  v <- Valnum ;;
  s <- push_target (Some hd) (set_type IRStmtJmp (set_valnum v IRStmt_init)) ;;
  _ <- AddIRStmt cur in_jmp s None ;;
  do SetCurBB (Some hd) ;;
  b <- Bindings_get ;;
  binding_phis <- WhileHeaderPhis cur (Some hd) (Bindings.Keys b) [] ;;
  ok <- ModifyASTExpr condition ;;
  if negb ok then ret VISIT_END
  else
    loop_cond_br_arg <- GetIRStmt (Some (expr_ptr condition)) ;;
    frame <- loop_back ;;
    body_bb <- AddBB (Some (bb_name_prefix +:+ "body")) ;;
    loop_cond_br <- new_IRStmt ;;
    v <- Valnum ;;
    s <- push_arg loop_cond_br_arg (set_type IRStmtIf (set_valnum v IRStmt_init)) ;;
    s <- push_target (Some body_bb) s ;;
    s <- push_target (footer frame) s ;;
    _ <- AddIRStmt (header frame) loop_cond_br s None ;;
    b <- Bindings_get ;;
    frame_header <- of_option (header frame) ;;
    do modify_loop_back (fun f =>
         set_break_edges
           (smap_insert bb_addr frame_header
              (Bindings.Overlay (overlay_depth frame) b) (break_edges f)) f) ;;
    do SetCurBB (Some body_bb) ;;
    ok <- ModifyASTStmt body ;;
    if negb ok then ret VISIT_END
    else
      frame <- loop_back ;;
      body_end_bb <- CurBB ;;
      final_continue_jmp <- new_IRStmt ;;
      v <- Valnum ;;
      s <- push_target (header frame)
             (set_type IRStmtJmp (set_valnum v IRStmt_init)) ;;
      _ <- AddIRStmt body_end_bb final_continue_jmp s None ;;
      b <- Bindings_get ;;
      body_end <- of_option body_end_bb ;;
      do modify_loop_back (fun f =>
           set_continue_edges
             (smap_insert bb_addr body_end
                (Bindings.Overlay (overlay_depth frame) b) (continue_edges f)) f) ;;
      do Bindings_modify (Bindings.PopTo (overlay_depth frame)) ;;
      frame <- loop_back ;;
      ok <- AddWhileLoopPhiNodeInputs (Some binding_phis) None (continue_edges frame) ;;
      if negb ok then ret VISIT_END
      else
        ok <- AddWhileLoopPhiNodeInputs None (footer frame) (break_edges frame) ;;
        if negb ok then ret VISIT_END
        else
          do SetCurBB (footer frame) ;;
          do modify_c_back (fun fr =>
               set_loop_frames (removelast (loop_frames fr)) fr) ;;
          ret VISIT_TERMINAL.

(** The scan of [FindLoopFrame] from the innermost frame outwards. *)
Fixpoint find_labelled (i : nat) (frames : list LoopFrame) (l : string)
  : option nat :=
  match i with
  | O => None
  | S j =>
      match frames !! j with
      | Some f =>
          if bool_decide (while_label f = Some l) then Some j
          else find_labelled j frames l
      | None => None
      end
  end.

(** [FindLoopFrame]: the frame is returned as its index in
    [c_.back().loop_frames]. *)
Definition FindLoopFrame (lbl : option string) : M (option nat) :=
  fr <- c_back ;;
  match lbl with
  | Some l =>
      match find_labelled (length (loop_frames fr)) (loop_frames fr) l with
      | Some i => ret (Some i)
      | None =>
          do Error ("Break/continue with unknown label '" +:+ l +:+ "'") ;;
          ret None
      end
  | None =>
      if bool_decide (loop_frames fr = []) then
        do Error "Break/continue not in loop" ;;
        ret None
      else ret (Some (pred (length (loop_frames fr))))
  end.

(** [HandleBreakContinue(frame, edge_map, target)]; [is_break] selects
    [frame->break_edges] and [frame->footer], otherwise the continue
    edges and [frame->header]. *)
Definition HandleBreakContinue (frame_idx : nat) (is_break : bool) : M unit :=
  frame <- loop_at frame_idx ;;
  let target := if is_break then footer frame else header frame in
  b <- Bindings_get ;;
  let bindings := Bindings.Overlay (overlay_depth frame) b in
  _ <- Bindings_Push ;;
  cur <- CurBB ;;
  cur_bb <- of_option cur ;;
  do modify_loop_at frame_idx (fun f =>
       if is_break
       then set_break_edges (smap_insert bb_addr cur_bb bindings (break_edges f)) f
       else set_continue_edges
              (smap_insert bb_addr cur_bb bindings (continue_edges f)) f) ;;
  jmp <- new_IRStmt ;;
  v <- Valnum ;;
  s <- push_target target (set_type IRStmtJmp (set_valnum v IRStmt_init)) ;;
  _ <- AddIRStmt cur jmp s None ;;
  unreachable <- AddBB (Some "unreachable") ;;
  SetCurBB (Some unreachable).

Definition ModifyASTStmtBreakPost (lbl : option string) : M Result :=
  frame <- FindLoopFrame lbl ;;
  match frame with
  | None => ret VISIT_END
  | Some i => do HandleBreakContinue i true ;; ret VISIT_CONTINUE
  end.

Definition ModifyASTStmtContinuePost (lbl : option string) : M Result :=
  frame <- FindLoopFrame lbl ;;
  match frame with
  | None => ret VISIT_END
  | Some i => do HandleBreakContinue i false ;; ret VISIT_CONTINUE
  end.

(** *** Spawn *)

Definition ModifyASTStmtSpawnPre (body : ASTStmt) : M Result :=
  cur_bb <- CurBB ;;
  spawn_bb <- AddBB (Some "spawn") ;;
  spawn_stmt <- new_IRStmt ;;
  v <- Valnum ;;
  s <- push_target (Some spawn_bb)
         (set_width kIRStmtWidthTxnID
            (set_type IRStmtSpawn (set_valnum v IRStmt_init))) ;;
  cur <- CurBB ;;
  _ <- AddIRStmt cur spawn_stmt s None ;;
  do SetCurBB (Some spawn_bb) ;;
  level <- Bindings_Push ;;
  ok <- ModifyASTStmt body ;;
  if negb ok then ret VISIT_END
  else
    do Bindings_modify (Bindings.PopTo level) ;;
    kill_stmt <- new_IRStmt ;;
    v <- Valnum ;;
    cur <- CurBB ;;
    _ <- AddIRStmt cur kill_stmt
           (set_type IRStmtKill (set_valnum v IRStmt_init)) None ;;
    do SetCurBB cur_bb ;;
    ret VISIT_TERMINAL.
End Hooks.

(** ** The AST walker *)

(** Modelled from the spec: the class [ASTVisitor] is not under src/.  It is
    the walker of sections 2 and 9: for each node the pre-hook runs first;
    [VISIT_END] from a hook stops the walk with a failure, [VISIT_TERMINAL]
    from the pre-hook skips the children, and the post-hook runs after the
    children in both other cases.  A hook that [codegen.cc] does not define
    continues.  [fuel] bounds the depth of the walk (a [KillYounger] replays
    stored blocks, so the walk is not structural). *)
Section Visitor.
Variable bb_addr : BBPtr -> nat.
Variable kIRStmtWidthTxnID : Z.

Definition visit_node (pre : M Result) (children : M bool) (post : M Result)
  : M bool :=
  r <- pre ;;
  if bool_decide (r = VISIT_END) then ret false
  else
    ok <- (if bool_decide (r = VISIT_CONTINUE) then children else ret true) ;;
    if negb ok then ret false
    else
      r' <- post ;;
      ret (negb (bool_decide (r' = VISIT_END))).

(** Children in order, stopping at the first failure. *)
Fixpoint visit_all {A : Type} (visit : A -> M bool) (l : list A) : M bool :=
  match l with
  | [] => ret true
  | x :: r =>
      ok <- visit x ;;
      if negb ok then ret false else visit_all visit r
  end.

Definition continue_ : M Result := ret VISIT_CONTINUE.

Fixpoint ModifyASTExpr (fuel : nat) (node : ASTExpr) {struct fuel} : M bool :=
  match fuel with
  | O => nofuel
  | S n =>
      visit_node continue_
        (ok <- visit_all (ModifyASTExpr n) (expr_ops node) ;;
         if negb ok then ret false
         else match expr_stmt node with
              | Some blk => ModifyASTStmtBlock n blk
              | None => ret true
              end)
        (ModifyASTExprPost n node)
  end
with ModifyASTStmt (fuel : nat) (node : ASTStmt) {struct fuel} : M bool :=
  match fuel with
  | O => nofuel
  | S n =>
      match node with
      | StmtBlock body => ModifyASTStmtBlock n body
      | StmtLet l rhs =>
          visit_node continue_ (ModifyASTExpr n rhs) (ModifyASTStmtLetPost l rhs)
      | StmtAssign lhs rhs =>
          visit_node (ModifyASTStmtAssignPre (ModifyASTExpr n) lhs rhs)
            (ok <- ModifyASTExpr n lhs ;;
             if negb ok then ret false else ModifyASTExpr n rhs)
            (ModifyASTStmtAssignPost (ModifyASTExpr n) n lhs rhs)
      | StmtIf condition if_body else_body =>
          visit_node
            (ModifyASTStmtIfPre (ModifyASTExpr n) (ModifyASTStmt n)
               condition if_body else_body)
            (ok <- ModifyASTExpr n condition ;;
             if negb ok then ret false
             else
               ok <- ModifyASTStmt n if_body ;;
               if negb ok then ret false
               else match else_body with
                    | Some eb => ModifyASTStmt n eb
                    | None => ret true
                    end)
            continue_
      | StmtWhile lbl condition body =>
          visit_node
            (ModifyASTStmtWhilePre (ModifyASTExpr n) (ModifyASTStmt n) bb_addr
               lbl condition body)
            (ok <- ModifyASTExpr n condition ;;
             if negb ok then ret false else ModifyASTStmt n body)
            continue_
      | StmtBreak lbl =>
          visit_node continue_ (ret true) (ModifyASTStmtBreakPost bb_addr lbl)
      | StmtContinue lbl =>
          visit_node continue_ (ret true) (ModifyASTStmtContinuePost bb_addr lbl)
      | StmtWrite port rhs =>
          visit_node continue_
            (ok <- ModifyASTExpr n port ;;
             if negb ok then ret false else ModifyASTExpr n rhs)
            (ModifyASTStmtWritePost n port rhs)
      | StmtSpawn body =>
          visit_node (ModifyASTStmtSpawnPre (ModifyASTStmt n) kIRStmtWidthTxnID body)
            (ModifyASTStmt n body) continue_
      | StmtKill => visit_node continue_ (ret true) ModifyASTStmtKillPost
      | StmtKillYounger =>
          visit_node continue_ (ret true)
            (ModifyASTStmtKillYoungerPost (ModifyASTStmtBlock n))
      | StmtKillIf condition =>
          visit_node continue_ (ModifyASTExpr n condition)
            (ModifyASTStmtKillIfPost condition)
      | StmtTiming body =>
          visit_node ModifyASTStmtTimingPre (ModifyASTStmt n body)
            ModifyASTStmtTimingPost
      | StmtStage offset =>
          visit_node continue_ (ret true) (ModifyASTStmtStagePost offset)
      | StmtExpr e =>
          visit_node continue_ (ModifyASTExpr n e) ModifyASTStmtExprPost
      | StmtNestedFunc body =>
          visit_node (ModifyASTStmtNestedFuncPre (ModifyASTStmtBlock n) body)
            (ModifyASTStmtBlock n body) continue_
      | StmtOnKillYounger body =>
          visit_node (ModifyASTStmtOnKillYoungerPre body)
            (ModifyASTStmtBlock n body) continue_
      | StmtBypassStart bypass index =>
          visit_node continue_
            (ok <- ModifyASTExpr n bypass ;;
             if negb ok then ret false else ModifyASTExpr n index)
            (ModifyASTStmtBypassStartPost n bypass index)
      | StmtBypassEnd bypass =>
          visit_node continue_ (ModifyASTExpr n bypass)
            (ModifyASTStmtBypassEndPost n bypass)
      | StmtBypassWrite bypass value =>
          visit_node continue_
            (ok <- ModifyASTExpr n bypass ;;
             if negb ok then ret false else ModifyASTExpr n value)
            (ModifyASTStmtBypassWritePost n bypass value)
      end
  end
with ModifyASTStmtBlock (fuel : nat) (body : list ASTStmt) {struct fuel} : M bool :=
  match fuel with
  | O => nofuel
  | S n => visit_all (ModifyASTStmt n) body
  end.

Definition ModifyASTFunctionDef (fuel : nat) (node : ASTFunctionDef) : M bool :=
  visit_node (ModifyASTFunctionDefPre node)
    (ModifyASTStmtBlock fuel (fn_block node))
    (ModifyASTFunctionDefPost node).
End Visitor.

(** ** Unreachable-block removal *)

(** Modelled from the spec: [IRBB::Succs()] is declared in [ir.h], not under
    src/.  After section 3.2 the successors of a block are the targets of its
    conditional branches, jumps and spawns; phi targets and the statements
    without targets contribute none. *)
Definition Succs (root : BBPtr) : M (list BBPtr) :=
  blk <- deref_bb (Some root) ;;
  fold_left (fun (acc : M (list BBPtr)) q =>
               l <- acc ;;
               s <- deref_stmt (Some q) ;;
               ret (if bool_decide (type s = IRStmtIf \/ type s = IRStmtJmp
                                    \/ type s = IRStmtSpawn)
                    then l ++ targets s else l))
            (stmts blk) (ret []).

(** [for (auto* bb : l) mark(bb_set, bb)]. *)
Fixpoint mark_each (mark : gset nat -> BBPtr -> M (gset nat))
    (l : list BBPtr) (bb_set : gset nat) : M (gset nat) :=
  match l with
  | [] => ret bb_set
  | bb :: r => s <- mark bb_set bb ;; mark_each mark r s
  end.

(** [MarkSuccs(bb_set, root)]; [fuel] bounds the depth of the recursion. *)
Fixpoint MarkSuccs (fuel : nat) (bb_set : gset nat) (root : BBPtr) {struct fuel}
  : M (gset nat) :=
  if decide (root ∈ bb_set) then ret bb_set
  else match fuel with
       | O => nofuel
       | S n =>
           succs <- Succs root ;;
           mark_each (MarkSuccs n) succs ({[root]} ∪ bb_set)
       end.

(** The loop of [FilterPhiInputs] over [i < phi->args.size()]; reading
    [targets[i]], [target_names[i]] or [arg_nums[i]] past the end of the
    vector is undefined. *)
Fixpoint filter_inputs (reachable : gset nat) (l_args : list StmtPtr)
    (l_targets : list BBPtr) (l_names : list string) (l_nums : list Z)
  : option (list BBPtr * list string * list StmtPtr * list Z) :=
  match l_args with
  | [] => Some ([], [], [], [])
  | a :: l_args' =>
      match l_targets, l_names, l_nums with
      | t :: l_targets', n :: l_names', k :: l_nums' =>
          match filter_inputs reachable l_args' l_targets' l_names' l_nums' with
          | Some (ts, ns, az, ks) =>
              if decide (t ∈ reachable)
              then Some (t :: ts, n :: ns, a :: az, k :: ks)
              else Some (ts, ns, az, ks)
          | None => None
          end
      | _, _, _ => None
      end
  end.

Definition FilterPhiInputs (phi : StmtPtr) (reachable : gset nat) : M unit :=
  s <- deref_stmt (Some phi) ;;
  r <- of_option (filter_inputs reachable (args s) (targets s)
                    (target_names s) (arg_nums s)) ;;
  let '(new_targets, new_target_names, new_args, new_arg_nums) := r in
  modify_prog (fun g =>
    set_stmt_heap
      (<[phi := set_arg_nums new_arg_nums
                  (set_args new_args
                     (set_target_names new_target_names
                        (set_targets new_targets s)))]> (stmt_heap g)) g).

(** A loop without [return]. *)
Fixpoint for_all {A : Type} (l : list A) (body : A -> M unit) : M unit :=
  match l with
  | [] => ret tt
  | x :: r => do body x ;; for_all r body
  end.

(** The first loop of [RemoveUnreachableBBsAndPhis]: the blocks reachable
    from the entry blocks and from the targets of the spawns. *)
Definition mark_roots (fuel : nat) (bb : BBPtr) (reachable : gset nat)
  : M (gset nat) :=
  blk <- deref_bb (Some bb) ;;
  reachable <- (if is_entry blk then MarkSuccs fuel reachable bb
                else ret reachable) ;;
  fold_left (fun (acc : M (gset nat)) q =>
               r <- acc ;;
               s <- deref_stmt (Some q) ;;
               if bool_decide (type s = IRStmtSpawn) then
                 t0 <- of_option (targets s !! 0%nat) ;;
                 MarkSuccs fuel r t0
               else ret r)
            (stmts blk) (ret reachable).

Definition Reachable (fuel : nat) : M (gset nat) :=
  l <- gets (fun p => bbs (ir p)) ;;
  fold_left (fun (acc : M (gset nat)) bb => r <- acc ;; mark_roots fuel bb r)
            l (ret ∅).

(** [filtered_bbs] replaces [bbs]; the blocks left behind are destroyed
    together with the statements they own. *)
Definition free_bb (g : IRProgram) (bb : BBPtr) : IRProgram :=
  match bb_heap g !! bb with
  | Some blk =>
      set_bb_heap (delete bb (bb_heap g))
        (set_stmt_heap (foldr delete (stmt_heap g) (stmts blk)) g)
  | None => g
  end.

Definition RemoveUnreachableBBsAndPhis (fuel : nat) : M unit :=
  reachable <- Reachable fuel ;;
  l <- gets (fun p => bbs (ir p)) ;;
  do for_all l (fun bb =>
       blk <- deref_bb (Some bb) ;;
       for_all (stmts blk) (fun q =>
         s <- deref_stmt (Some q) ;;
         if bool_decide (type s = IRStmtPhi) then FilterPhiInputs q reachable
         else ret tt)) ;;
  modify_prog (fun g =>
    set_bbs (filter (fun bb => bb ∈ reachable) (bbs g))
      (fold_left free_bb (filter (fun bb => bb ∉ reachable) (bbs g)) g)).

(** ** The parser of type definitions *)

Module Parser.
(** [Token::Type], the token kinds that [parser.cc] names. *)
Inductive TokenType : Type :=
  | EOFTOKEN | IDENT | LPAREN | RPAREN | COLON | LBRACE | RBRACE | EQUALS
  | SEMICOLON | QUESTION | PIPE | CARET | AMPERSAND | DOUBLE_EQUAL
  | NOT_EQUAL | LANGLE | RANGLE | LESS_EQUAL | GREATER_EQUAL | LSH | RSH
  | PLUS | DASH | STAR | SLASH | PERCENT.

#[global] Instance TokenType_eq_dec : EqDecision TokenType.
Proof. solve_decision. Defined.

Record Token : Type := Build_Token { tok_type : TokenType; tok_s : string }.

(** The parser's state: the tokens not yet consumed and the errors
    reported so far. *)
Record Parser : Type := Build_Parser {
  tokens : list Token;
  parse_errors : list string
}.

(** The outcome of a parsing function: it returns, or it dereferences a
    null [ASTRef], or the bound on the number of loop rounds is used up. *)
Inductive PRes (A : Type) : Type :=
  | PRet (a : A) (st : Parser)
  | PNull
  | PFuel.
Arguments PRet {A} a st.
Arguments PNull {A}.
Arguments PFuel {A}.

Definition PM (A : Type) : Type := Parser -> PRes A.
Definition pret {A : Type} (a : A) : PM A := fun st => PRet a st.
Definition pbind {A B : Type} (m : PM A) (k : A -> PM B) : PM B :=
  fun st => match m st with
            | PRet a st' => k a st'
            | PNull => PNull
            | PFuel => PFuel
            end.

(** The token helpers are declared in [parser.h], not under src/; they
    are modelled after their names and their uses in [parser.cc]: the
    token stream ends in [EOFTOKEN], [Expect] reports an error when the
    current token is of another type, [Consume] expects and advances, and
    the [Try] forms check without reporting. *)
Definition CurToken (st : Parser) : Token :=
  match tokens st with
  | t :: _ => t
  | [] => Build_Token EOFTOKEN ""
  end.
Definition advance : PM unit :=
  fun st => PRet tt (Build_Parser (tl (tokens st)) (parse_errors st)).
Definition TryExpect (t : TokenType) : PM bool :=
  fun st => PRet (bool_decide (tok_type (CurToken st) = t)) st.
Definition Expect (t : TokenType) : PM bool :=
  fun st =>
    if bool_decide (tok_type (CurToken st) = t) then PRet true st
    else PRet false (Build_Parser (tokens st)
                       (parse_errors st ++ ["Unexpected token"])).
Definition Consume (t : TokenType) : PM bool :=
  pbind (Expect t) (fun ok =>
    if ok then pbind advance (fun _ => pret true) else pret false).
Definition TryConsume (t : TokenType) : PM bool :=
  pbind (TryExpect t) (fun ok =>
    if ok then pbind advance (fun _ => pret true) else pret false).

Record ASTIdent : Type := Build_ASTIdent { id_name : string }.
Record ASTType : Type := Build_ASTType {
  ty_is_port : bool;
  ty_ident : option ASTIdent
}.
Record ASTTypeField : Type := Build_ASTTypeField {
  field_ident : option ASTIdent;
  field_type : option ASTType
}.
Record ASTTypeDef : Type := Build_ASTTypeDef {
  td_ident : option ASTIdent;
  td_fields : list (option ASTTypeField)
}.

(** [*ref] for an [ASTRef], which owns its object or is null. *)
Definition deref {A : Type} (ref : option A) : PM A :=
  fun st => match ref with
            | Some a => PRet a st
            | None => PNull
            end.

(** [ParseIdent(id)]: the identifier is returned with its name set. *)
Definition ParseIdent (id : ASTIdent) : PM (bool * ASTIdent) :=
  pbind (Expect IDENT) (fun ok =>
    if negb ok then pret (false, id)
    else fun st =>
      pbind advance (fun _ => pret (true, Build_ASTIdent (tok_s (CurToken st)))) st).

Definition ParseType (ty : ASTType) : PM (bool * ASTType) :=
  pbind (Expect IDENT) (fun ok =>
    if negb ok then pret (false, ty)
    else fun st =>
      let port := bool_decide (tok_s (CurToken st) = "port") in
      pbind (if port
             then pbind advance (fun _ =>
                    pbind (Expect IDENT) (fun ok' =>
                      pret (ok', Build_ASTType true (ty_ident ty))))
             else pret (true, ty))
        (fun r =>
           if negb (fst r) then pret (false, snd r)
           else
             pbind (ParseIdent (Build_ASTIdent "")) (fun ri =>
               let ty' := Build_ASTType (ty_is_port (snd r)) (Some (snd ri)) in
               pret (fst ri, ty'))) st).

(** The loop of [ParseTypeDef]; [fuel] bounds the number of rounds. *)
Fixpoint ParseTypeDef_fields (fuel : nat) (def : ASTTypeDef)
  : PM (bool * ASTTypeDef) :=
  match fuel with
  | O => fun _ => PFuel
  | S n =>
      pbind (TryConsume RBRACE) (fun closed =>
        if closed then pret (true, def)
        else
          (* ASTRef<ASTTypeField> field; *)
          let field : option ASTTypeField := None in
          (* field->ident.reset(new ASTIdent()); *)
          pbind (deref field) (fun f =>
            let f := Build_ASTTypeField (Some (Build_ASTIdent "")) (field_type f) in
            pbind (ParseIdent (Build_ASTIdent "")) (fun ri =>
              let f := Build_ASTTypeField (Some (snd ri)) (field_type f) in
              if negb (fst ri) then pret (false, def)
              else
                pbind (Consume COLON) (fun ok =>
                  if negb ok then pret (false, def)
                  else
                    pbind (ParseType (Build_ASTType false None)) (fun rt =>
                      let f := Build_ASTTypeField (field_ident f) (Some (snd rt)) in
                      if negb (fst rt) then pret (false, def)
                      else
                        pbind (Consume SEMICOLON) (fun ok' =>
                          if negb ok' then pret (false, def)
                          else
                            ParseTypeDef_fields n
                              (Build_ASTTypeDef (td_ident def)
                                 (td_fields def ++ [Some f]))))))))
  end.

Definition ParseTypeDef (fuel : nat) (def : ASTTypeDef)
  : PM (bool * ASTTypeDef) :=
  pbind (ParseIdent (Build_ASTIdent "")) (fun ri =>
    let def := Build_ASTTypeDef (Some (snd ri)) (td_fields def) in
    if negb (fst ri) then pret (false, def)
    else
      pbind (Consume LBRACE) (fun ok =>
        if negb ok then pret (false, def)
        else ParseTypeDef_fields fuel def)).
End Parser.

(** ** Notions the properties are stated with *)

(** The expression [d] occurs in the subtree of the expression [e]. *)
Inductive subexpr : ASTExpr -> ASTExpr -> Prop :=
  | subexpr_refl e : subexpr e e
  | subexpr_op e c d : c ∈ expr_ops e -> subexpr c d -> subexpr e d.

(** No [STMTBLOCK] and no [ARRAY_REF] node anywhere in the subtree. *)
Definition side_effect_free (e : ASTExpr) : Prop :=
  forall d, subexpr e d -> expr_op d <> STMTBLOCK /\ expr_op d <> ARRAY_REF.

(** The statements that the hooks below build. *)
Definition barrier (v : Z) (tv : TimeVarPtr) (off : Z) : IRStmt :=
  set_time_offset off
    (set_timevar (Some tv) (set_type IRStmtTimingBarrier (set_valnum v IRStmt_init))).
Definition kill_if_stmt (v : Z) (q : StmtPtr) (cond_stmt : IRStmt) : IRStmt :=
  set_arg_nums [valnum cond_stmt]
    (set_args [q] (set_type IRStmtKillIf (set_valnum v IRStmt_init))).
Definition done_stmt (v : Z) : IRStmt :=
  set_type IRStmtDone (set_valnum v IRStmt_init).

(** The state an outcome carries; the initial state when there is none. *)
Definition state_of {A : Type} (r : Res A) : CodeGenPass :=
  match r with
  | Ok _ p => p
  | _ => CodeGenPass_init
  end.

(** ** Example inputs *)

Module Examples.
Definition ty32 : ASTType := Build_ASTType 32 false false 0.
Definition cst (n : nat) (c : Z) : ASTExpr :=
  MkExpr (AstNode n) CONST [] None c true ty32 None None.
Definition binop (n : nat) (o : Op) (a b : ASTExpr) : ASTExpr :=
  MkExpr (AstNode n) o [a; b] None 0 false ty32 None None.
Definition let_ (n : nat) : LetRef := Build_LetRef n ty32.

(** Basic blocks at increasing addresses. *)
Definition bb_addr : BBPtr -> nat := fun b => b.
Definition kIRStmtWidthTxnID : Z := 8.

(** [func g(): void {}] and [entry func f(): void {}]. *)
Definition fn_plain : ASTFunctionDef := Build_ASTFunctionDef false "g" [].
Definition fn_empty : ASTFunctionDef := Build_ASTFunctionDef true "f" [].

(** The state at the start of the body of an entry function. *)
Definition in_entry : CodeGenPass :=
  state_of (ModifyASTFunctionDefPre fn_empty CodeGenPass_init).

(** The same, inside a [timing] block. *)
Definition in_timing : CodeGenPass :=
  state_of (ModifyASTStmtTimingPre in_entry).

(** The state after lowering the constant of [kill_if 1]. *)
Definition kill_if_cond : ASTExpr := cst 1 1.
Definition after_cond : CodeGenPass :=
  state_of (ModifyASTExpr bb_addr kIRStmtWidthTxnID 2 kill_if_cond in_entry).

(** The condition of [kill_if { 1; }]: a statement-block expression. *)
Definition kill_if_block : ASTExpr :=
  MkExpr (AstNode 2) STMTBLOCK [] None 0 false ty32 None (Some [StmtExpr (cst 3 1)]).

(** A port definition whose inferred type is neither a port nor a chan,
    [write <it>, 7;] and [read <it>;]. *)
Definition ty_plain : ASTType := Build_ASTType 32 false false 0.
Definition bad_port : ASTExpr :=
  MkExpr (AstNode 1) PORTDEF [] (Some "") 0 false ty_plain None None.
Definition write_misuse : ASTStmt := StmtWrite bad_port (cst 2 7).
Definition read_misuse : ASTStmt :=
  StmtExpr (MkExpr (AstNode 3) PORTREAD [bad_port] None 0 false ty32 None None).

(** The tokens of [T { x : int; }], after [Parse] has consumed [type]. *)
Definition typedef_tokens : list Parser.Token :=
  [Parser.Build_Token Parser.IDENT "T"; Parser.Build_Token Parser.LBRACE "{";
   Parser.Build_Token Parser.IDENT "x"; Parser.Build_Token Parser.COLON ":";
   Parser.Build_Token Parser.IDENT "int"; Parser.Build_Token Parser.SEMICOLON ";";
   Parser.Build_Token Parser.RBRACE "}"].


(** The state after [onkillyounger { 7; }] at the start of an entry
    function, and the walker that lowers the registered blocks. *)
Definition registered_block : list ASTStmt := [StmtExpr (cst 1 7)].
Definition registered : CodeGenPass :=
  state_of (ModifyASTStmtOnKillYoungerPre registered_block in_entry).
Definition lower_block : list ASTStmt -> M bool :=
  ModifyASTStmtBlock bb_addr kIRStmtWidthTxnID 5.


(** [entry func f(): void { let x = 0; while (1) { break; spawn { } } }],
    its lowering, and the removal of unreachable blocks run once and twice
    on it. *)
Definition dead_spawn_fn : ASTFunctionDef :=
  Build_ASTFunctionDef true "f"
    [StmtLet (let_ 1) (cst 1 0);
     StmtWhile None (cst 2 1) (StmtBlock [StmtBreak None; StmtSpawn (StmtBlock [])])].
Definition dead_spawn : CodeGenPass :=
  state_of (ModifyASTFunctionDef bb_addr kIRStmtWidthTxnID 20 dead_spawn_fn
              CodeGenPass_init).
Definition swept_once : CodeGenPass :=
  state_of (RemoveUnreachableBBsAndPhis 20 dead_spawn).
Definition swept_twice : CodeGenPass :=
  state_of (RemoveUnreachableBBsAndPhis 20 swept_once).

(** The same without the spawn. *)
Definition break_fn : ASTFunctionDef :=
  Build_ASTFunctionDef true "f"
    [StmtLet (let_ 1) (cst 1 0);
     StmtWhile None (cst 2 1) (StmtBlock [StmtBreak None])].
Definition with_break : CodeGenPass :=
  state_of (ModifyASTFunctionDef bb_addr kIRStmtWidthTxnID 20 break_fn
              CodeGenPass_init).
Definition swept_break : CodeGenPass :=
  state_of (RemoveUnreachableBBsAndPhis 20 with_break).


End Examples.

(** The loop of [VerifyNoSideEffects] over [expr->ops]. *)
Definition verify_each : list ASTExpr -> list string -> bool * list string :=
  fix each (l : list ASTExpr) (coll : list string) : bool * list string :=
    match l with
    | [] => (true, coll)
    | x :: r =>
        let '(ok, coll') := VerifyNoSideEffects x coll in
        if ok then each r coll' else (false, coll')
    end.

(** A computation respects a relation between states when every state it
    ends in is related to the state it started in. *)
Definition respects (R : CodeGenPass -> CodeGenPass -> Prop) {A : Type} (m : M A)
  : Prop :=
  forall p a q, m p = Ok a q -> R p q.



(** Blocks only grow, and only at their end.  Block pointers below
    [next_bb] are the allocated ones. *)
Definition wf_bb (p : CodeGenPass) : Prop :=
  forall b, is_Some (bb_heap (ir p) !! b) -> (b < next_bb (ir p))%nat.
Definition bb_extends (p q : CodeGenPass) : Prop :=
  forall b blk, bb_heap (ir p) !! b = Some blk ->
    exists blk', bb_heap (ir q) !! b = Some blk' /\ stmts blk `prefix_of` stmts blk'.
Definition appends_only (p q : CodeGenPass) : Prop :=
  wf_bb p -> wf_bb q /\ bb_extends p q.

(** The state after [new IRStmt], [Valnum()] and [AddIRStmt(cur, stmt)] for
    a statement that is [s] up to its value number. *)
Definition emit (cur : BBPtr) (blk : IRBB) (s : IRStmt) (p : CodeGenPass)
  : CodeGenPass :=
  set_ctx_
    (set_prog_
       (set_bb_heap
          (<[cur := set_stmts (stmts blk ++ [next_stmt (ir p)]) blk]> (bb_heap (ir p)))
          (set_stmt_heap
             (<[next_stmt (ir p) := set_valnum (next_valnum (ir p)) s]> (stmt_heap (ir p)))
             (set_next_valnum (next_valnum (ir p) + 1)
                (set_next_stmt (S (next_stmt (ir p))) (ir p)))))
       (ctx_ p)) p.

(** The blocks [blocks] are lowered by [visit] one after the other, each
    with success, taking the state from [p] to [q]; the number of registered
    on-kill-younger blocks stays [n] throughout. *)
Inductive lowered_in_order (visit : list ASTStmt -> M bool) (n : nat)
  : list (list ASTStmt) -> CodeGenPass -> CodeGenPass -> Prop :=
  | lowered_nil p : lowered_in_order visit n [] p p
  | lowered_cons b r p p1 q fr :
      visit b p = Ok true p1 ->
      last (c_ p1) = Some fr ->
      length (onkillyoungers fr) = n ->
      lowered_in_order visit n r p1 q ->
      lowered_in_order visit n (b :: r) p q.

(** The body of the loop of [ModifyASTStmtKillYoungerPost], for [n]
    registered blocks, and the statement the hook emits first. *)
Definition replay_body (visit : list ASTStmt -> M bool) (n : nat)
    (body : list ASTStmt) : M (option Result) :=
  ok <- visit body ;;
  if negb ok then ret (Some VISIT_TERMINAL)
  else
    fr' <- c_back ;;
    if decide (length (onkillyoungers fr') = n) then ret None else undef.
Definition kill_younger_stmt : IRStmt := set_type IRStmtKillYounger IRStmt_init.

(** ** Notions for the merge of an if/else *)








(** The keys of a map from lets, as addresses. *)
Abbreviation let_keys := (map (let_ptr ∘ fst)).


(** ** Notions for the removal of unreachable blocks *)

(** The blocks of [X] and the control flow out of them are the same in [p]
    and in [p1]. *)
Definition same_flow (X : gset nat) (p p1 : CodeGenPass) : Prop :=
  forall b blk, b ∈ X -> bb_heap (ir p) !! b = Some blk ->
    bb_heap (ir p1) !! b = Some blk /\
    forall q s, q ∈ stmts blk -> stmt_heap (ir p) !! q = Some s ->
      exists s', stmt_heap (ir p1) !! q = Some s' /\ type s' = type s /\
                 (type s <> IRStmtPhi -> targets s' = targets s).

(** The body of the loop of [Succs] over the statements of a block. *)
Definition succs_step (l : list BBPtr) (q : StmtPtr) : M (list BBPtr) :=
  s <- deref_stmt (Some q) ;;
  ret (if bool_decide (type s = IRStmtIf \/ type s = IRStmtJmp \/ type s = IRStmtSpawn)
       then l ++ targets s else l).

(** What a marking computation guarantees: it only reads the state, it only
    adds to the set, and it runs the same way in any state with the same
    control flow out of the blocks of a set that holds its result. *)
Definition marks (m : M (gset nat)) (s : gset nat) : Prop :=
  forall p s' p',
    m p = Ok s' p' ->
    p' = p /\ s ⊆ s' /\
    forall X p1, s' ⊆ X -> same_flow X p p1 -> m p1 = Ok s' p1.

(** The body of the loop of [mark_roots] over the statements of a block. *)
Definition spawn_step (fuel : nat) (r : gset nat) (q : StmtPtr) : M (gset nat) :=
  s <- deref_stmt (Some q) ;;
  if bool_decide (type s = IRStmtSpawn) then
    t0 <- of_option (targets s !! 0%nat) ;;
    MarkSuccs fuel r t0
  else ret r.

(** The statement [q] is not a spawn. *)
Definition not_spawn (p : CodeGenPass) (q : StmtPtr) : Prop :=
  type <$> stmt_heap (ir p) !! q <> Some IRStmtSpawn.

(** No block of the program outside [R] holds a spawn. *)
Definition dead_spawn_free (R : gset nat) (p : CodeGenPass) : Prop :=
  forall bb blk q,
    bb ∈ bbs (ir p) -> bb ∉ R -> bb_heap (ir p) !! bb = Some blk -> q ∈ stmts blk ->
    not_spawn p q.

(** A phi whose inputs all come from reachable blocks. *)
Definition phi_clean (reachable : gset nat) (s : IRStmt) : Prop :=
  length (targets s) = length (args s) /\
  length (target_names s) = length (args s) /\
  length (arg_nums s) = length (args s) /\
  Forall (fun t => t ∈ reachable) (targets s).

(** Every block of the program exists and is reachable, every statement of
    a block exists, and every phi is clean. *)
Definition clean (reachable : gset nat) (p : CodeGenPass) : Prop :=
  forall bb, bb ∈ bbs (ir p) ->
    bb ∈ reachable /\
    exists blk, bb_heap (ir p) !! bb = Some blk /\
      forall q, q ∈ stmts blk ->
        exists s, stmt_heap (ir p) !! q = Some s /\
                  (type s = IRStmtPhi -> phi_clean reachable s).

(** What the filtering of the phis may do to a statement: nothing, or turn
    a phi into a clean phi. *)
Definition refined (R : gset nat) (s s' : IRStmt) : Prop :=
  s' = s \/ (type s = IRStmtPhi /\ type s' = IRStmtPhi /\ phi_clean R s').
Definition filtered (R : gset nat) (p p' : CodeGenPass) : Prop :=
  bbs (ir p') = bbs (ir p) /\ bb_heap (ir p') = bb_heap (ir p) /\
  forall q, option_Forall2 (refined R) (stmt_heap (ir p) !! q) (stmt_heap (ir p') !! q).
(** The statement [q] and the block [bb] have been through the filtering
    of the phis. *)
Definition done_phi (R : gset nat) (q : StmtPtr) (p : CodeGenPass) : Prop :=
  exists s, stmt_heap (ir p) !! q = Some s /\ (type s = IRStmtPhi -> phi_clean R s).
Definition done_bb (R : gset nat) (bb : BBPtr) (p : CodeGenPass) : Prop :=
  exists blk, bb_heap (ir p) !! bb = Some blk /\
              forall q, q ∈ stmts blk -> done_phi R q p.

(** Every statement has one owner. *)
Definition owned_once (p : CodeGenPass) : Prop :=
  forall b b' blk blk' q,
    b <> b' -> bb_heap (ir p) !! b = Some blk -> bb_heap (ir p) !! b' = Some blk' ->
    q ∈ stmts blk -> q ∉ stmts blk'.

(** The bodies of the two loops of [RemoveUnreachableBBsAndPhis] over the
    phis. *)
Definition phi_body (R : gset nat) (q : StmtPtr) : M unit :=
  s <- deref_stmt (Some q) ;;
  if bool_decide (type s = IRStmtPhi) then FilterPhiInputs q R else ret tt.

Definition blk_body (R : gset nat) (bb : BBPtr) : M unit :=
  blk <- deref_bb (Some bb) ;;
  for_all (stmts blk) (phi_body R).

(** The set that a marking computation returns. *)
Definition reached (r : Res (gset nat)) : gset nat :=
  match r with
  | Ok R _ => R
  | _ => ∅
  end.

(** ** Notions for the header phis of a while loop *)

(** The IR statement of the current binding of a let, if it has one. *)
Definition binding_ir (p : CodeGenPass) (l : LetRef) : option StmtPtr :=
  e ← Bindings.Get l (bindings_ (ctx_ p)); expr_to_ir_map_ (ctx_ p) !! expr_ptr e.






(** * Properties *)

(** ** Running the monad *)

Lemma bind_Ok {A B : Type} (m : M A) (k : A -> M B) p a p1 :
  m p = Ok a p1 -> bind m k p = k a p1.
Proof. intros H. unfold bind. by rewrite H. Qed.

Lemma bind_Ok_inv {A B : Type} (m : M A) (k : A -> M B) p b p2 :
  bind m k p = Ok b p2 -> exists a p1, m p = Ok a p1 /\ k a p1 = Ok b p2.
Proof. unfold bind. destruct (m p) as [a p1| |]; [eauto|done|done]. Qed.

Lemma int_succ_Ok z p : z < INT_MAX -> int_succ z p = Ok (z + 1) p.
Proof. intros H. unfold int_succ. by destruct (decide (z < INT_MAX)). Qed.

(** Symbolic execution: the state is taken apart into its fields, the
    primitives are unfolded and the binds reduced. *)
Ltac destruct_pass p :=
  let g := fresh "g" in
  let c := fresh "c" in
  destruct p as [c ? ?]; destruct c as [g ? ? ? ? ? ?]; destruct g; simpl in *.
Ltac unf :=
  unfold bind, ret, gets, modify_prog, modify_ctx, modify, of_option, undef, ir in *.
Ltac prim :=
  unfold AddBB, GenSym, deref_bb, deref_stmt, AddEntry, SetCurBB, CurBB,
    new_IRStmt, Valnum, AddIRStmt, AddIRStmt_expr, GetIRStmt, Error, c_back,
    bb_set_label, bb_set_is_entry, timevar_map_set, timevars_push,
    modify_c_back, timevar_add_use, push_arg, push_target, new_ASTExpr,
    Bindings_get, Bindings_modify, Bindings_Push, Bindings_lookup in *.
Ltac run := repeat (progress (prim; unf; simpl)).
Ltac no_bump :=
  repeat match goal with
         | |- context [decide (?a >= ?b)] => destruct (decide (a >= b)); [lia|]
         end.

(** ** Function definitions *)

Section FunctionDef.
Variable bb_addr : BBPtr -> nat.
Variable kIRStmtWidthTxnID : Z.

(** C4.  A function that is not an entry is skipped: its pre-hook returns
    [VISIT_TERMINAL] and the walk over it leaves the state as it was, so no
    IR is emitted and no child is visited.  The pre-hook of an entry
    function adds one basic block, labelled with the function's name and
    marked as an entry, appends it to the program's entry list and makes it
    the current block; its post-hook appends a [Done] statement to the
    current block.  Lowering an entry function with an empty body from the
    initial state yields exactly one block, labelled with the function's
    name, whose only statement is a [Done]. *)
Theorem function_def_lowering (node : ASTFunctionDef) (p : CodeGenPass)
    (fuel : nat) :
  (fn_is_entry node = false ->
     ModifyASTFunctionDefPre node p = Ok VISIT_TERMINAL p /\
     ModifyASTFunctionDef bb_addr kIRStmtWidthTxnID fuel node p = Ok true p) /\
  (fn_is_entry node = true -> gensym_ (ctx_ p) < INT_MAX ->
     exists p',
       ModifyASTFunctionDefPre node p = Ok VISIT_CONTINUE p' /\
       bbs (ir p') = bbs (ir p) ++ [next_bb (ir p)] /\
       bb_heap (ir p') !! next_bb (ir p)
         = Some (Build_IRBB (fn_name node) true []) /\
       entries (ir p') = entries (ir p) ++ [next_bb (ir p)] /\
       curbb_ (ctx_ p') = Some (next_bb (ir p)) /\
       stmt_heap (ir p') = stmt_heap (ir p)) /\
  (fn_is_entry node = true -> next_valnum (ir p) < INT_MAX ->
     forall cur blk,
       curbb_ (ctx_ p) = Some cur -> bb_heap (ir p) !! cur = Some blk ->
       exists p',
         ModifyASTFunctionDefPost node p = Ok VISIT_CONTINUE p' /\
         bbs (ir p') = bbs (ir p) /\
         bb_heap (ir p')
           = <[cur := set_stmts (stmts blk ++ [next_stmt (ir p)]) blk]>
               (bb_heap (ir p)) /\
         stmt_heap (ir p')
           = <[next_stmt (ir p) := done_stmt (next_valnum (ir p))]>
               (stmt_heap (ir p))) /\
  (fn_is_entry node = true -> fn_block node = [] ->
     exists p',
       ModifyASTFunctionDef bb_addr kIRStmtWidthTxnID (S fuel) node
         CodeGenPass_init = Ok true p' /\
       bbs (ir p') = [0%nat] /\
       bb_heap (ir p') !! 0%nat = Some (Build_IRBB (fn_name node) true [0%nat]) /\
       exists s, stmt_heap (ir p') !! 0%nat = Some s /\ type s = IRStmtDone).
Proof.
  split; [|split; [|split]].
  - intros He. split.
    + unfold ModifyASTFunctionDefPre. by rewrite He.
    + unfold ModifyASTFunctionDef, visit_node, ModifyASTFunctionDefPre,
        ModifyASTFunctionDefPost.
      rewrite He. reflexivity.
  - intros He Hg. unfold ModifyASTFunctionDefPre. rewrite He.
        destruct_pass p. run. rewrite (int_succ_Ok _ _ Hg). simpl.
    rewrite lookup_insert_eq. simpl. rewrite lookup_insert_eq. simpl.
    eexists. split; [reflexivity|]. simpl.
    rewrite !insert_insert_eq, lookup_insert_eq. done.
  - intros He Hv cur blk Hc Hb. unfold ModifyASTFunctionDefPost. rewrite He.
    destruct_pass p. subst. run. rewrite (int_succ_Ok _ _ Hv). simpl.
    no_bump. simpl. rewrite Hb. simpl. eexists. split; [reflexivity|]. done.
  - intros He Hb. unfold ModifyASTFunctionDef, visit_node. rewrite Hb.
    unfold ModifyASTFunctionDefPre, ModifyASTFunctionDefPost. rewrite He.
    eexists. split; [vm_compute; reflexivity|]. vm_compute. eauto 10.
Qed.
End FunctionDef.

Lemma function_def_lowering_witness :
  ModifyASTFunctionDef Examples.bb_addr 8 0 Examples.fn_plain CodeGenPass_init
    = Ok true CodeGenPass_init /\
  exists p',
    ModifyASTFunctionDef Examples.bb_addr 8 1 Examples.fn_empty CodeGenPass_init
      = Ok true p' /\
    bbs (ir p') = [0%nat] /\
    bb_heap (ir p') !! 0%nat = Some (Build_IRBB "f" true [0%nat]).
Proof.
  split.
  - apply (function_def_lowering Examples.bb_addr 8 Examples.fn_plain
             CodeGenPass_init 0). reflexivity.
  - destruct (function_def_lowering Examples.bb_addr 8 Examples.fn_empty
                CodeGenPass_init 0) as (_ & _ & _ & H).
    destruct (H eq_refl eq_refl) as (p' & H1 & H2 & H3 & _).
    exists p'. auto.
Defined.

(** ** Stage statements *)

(** C5.  With a timing block open (the timing stack of the current function
    frame is not empty), the post-hook of a stage statement appends two
    timing barriers to the current block and nothing else: first one whose
    [time_offset] is the frame's [last_stage], then one whose [time_offset] is
    the offset of the stage statement; afterwards [last_stage] is that offset.
    With an empty timing stack it reports an error, returns [VISIT_END] and
    leaves the IR as it was. *)
Theorem stage_lowering (offset : Z) (p : CodeGenPass) (fr : FuncFrame) :
  last (c_ p) = Some fr ->
  (timing_stack fr = [] ->
     ModifyASTStmtStagePost offset p =
       Ok VISIT_END
         (set_errors
            (errors p ++
             ["'stage' statement appears outside of a timing {} block. Staging barriers can occur only inside the context of a timing {} block."])
            p)) /\
  (forall tv last_stage cur blk t,
     last (timing_stack fr) = Some tv ->
     last (timing_last_stage fr) = Some last_stage ->
     curbb_ (ctx_ p) = Some cur ->
     bb_heap (ir p) !! cur = Some blk ->
     timevars (ir p) !! tv = Some t ->
     next_valnum (ir p) + 1 < INT_MAX ->
     exists p' fr',
       ModifyASTStmtStagePost offset p = Ok VISIT_CONTINUE p' /\
       bbs (ir p') = bbs (ir p) /\
       bb_heap (ir p') =
         <[cur := set_stmts (stmts blk ++ [next_stmt (ir p); S (next_stmt (ir p))]) blk]>
           (bb_heap (ir p)) /\
       stmt_heap (ir p') =
         <[S (next_stmt (ir p)) := barrier (next_valnum (ir p) + 1) tv offset]>
           (<[next_stmt (ir p) := barrier (next_valnum (ir p)) tv last_stage]>
              (stmt_heap (ir p))) /\
       last (c_ p') = Some fr' /\
       last (timing_last_stage fr') = Some offset /\
       timing_stack fr' = timing_stack fr /\
       errors p' = errors p).
Proof.
  intros Hfr. split.
  - intros He. unfold ModifyASTStmtStagePost. destruct_pass p. run.
    rewrite Hfr. simpl. rewrite He. done.
  - intros tv ls cur blk t Htv Hls Hcur Hblk Ht Hnv.
    unfold ModifyASTStmtStagePost. destruct_pass p. subst.
    assert (Hne : timing_stack fr <> []) by (intros E; by rewrite E in Htv).
    repeat (progress (run;
      rewrite ?Hfr, ?Htv, ?Hls, ?Ht, ?Hblk, ?last_snoc, ?lookup_insert_eq,
        ?(bool_decide_eq_false_2 _ Hne), ?int_succ_Ok by lia;
      rewrite ?list_lookup_insert_eq by (by eapply lookup_lt_Some);
      no_bump)).
    eexists _, _. split; [reflexivity|]. simpl. rewrite last_snoc.
    repeat split; try done.
    + rewrite insert_insert_eq. by rewrite <- app_assoc.
    + simpl. by rewrite last_snoc.
Qed.

Lemma stage_lowering_witness :
  exists p',
    ModifyASTStmtStagePost 3 Examples.in_timing = Ok VISIT_CONTINUE p' /\
    bb_heap (ir p') !! 0%nat = Some (Build_IRBB "f" true [0%nat; 1%nat; 2%nat]) /\
    stmt_heap (ir p') !! 1%nat = Some (barrier 2 0 0) /\
    stmt_heap (ir p') !! 2%nat = Some (barrier 3 0 3).
Proof.
  destruct (stage_lowering 3 Examples.in_timing
              (Build_FuncFrame [0%nat] [0] [] [] None) eq_refl) as [_ H].
  destruct (H 0%nat 0 0%nat (Build_IRBB "f" true [0%nat])
              (Build_IRTimeVar "timing_2" [0%nat])
              eq_refl eq_refl eq_refl eq_refl eq_refl) as (p' & fr' & H1 & _ & H2 & H3 & _).
  { vm_compute. reflexivity. }
  exists p'. split; [exact H1|]. rewrite H2, H3. split; [|split]; reflexivity.
Defined.

(** ** Kill-if *)

(** Induction on an expression through its operands. *)
Lemma ASTExpr_ops_ind (P : ASTExpr -> Prop) :
  (forall e, Forall P (expr_ops e) -> P e) -> forall e, P e.
Proof.
  intros H. fix IH 1. intros e. apply H. destruct e as [p o l i c h t d s]. simpl.
  induction l as [|x r IHr]; constructor; [apply IH | apply IHr].
Qed.

Lemma VerifyNoSideEffects_eq e coll :
  VerifyNoSideEffects e coll =
    if bool_decide (expr_op e = STMTBLOCK \/ expr_op e = ARRAY_REF)
    then (false, coll ++ [kill_if_side_effect_msg])
    else verify_each (expr_ops e) coll.
Proof. by destruct e. Qed.

(** The verifier accepts exactly the side-effect-free expressions, and
    reports one error when it rejects. *)
Lemma VerifyNoSideEffects_spec e : forall coll,
  (side_effect_free e /\ VerifyNoSideEffects e coll = (true, coll)) \/
  (~ side_effect_free e /\
   VerifyNoSideEffects e coll = (false, coll ++ [kill_if_side_effect_msg])).
Proof.
  induction e as [e IH] using ASTExpr_ops_ind. intros coll.
  rewrite VerifyNoSideEffects_eq. case_bool_decide as Hop.
  - right. split; [|done]. intros Hs. destruct (Hs e (subexpr_refl e)). tauto.
  - assert (Hlist :
      (Forall side_effect_free (expr_ops e) /\
       verify_each (expr_ops e) coll = (true, coll)) \/
      (~ Forall side_effect_free (expr_ops e) /\
       verify_each (expr_ops e) coll = (false, coll ++ [kill_if_side_effect_msg]))).
    { clear Hop. induction IH as [|x r Hx Hr IHr]; simpl.
      - left. split; [constructor|done].
      - destruct (Hx coll) as [[Hs ->]|[Hs ->]].
        + destruct IHr as [[Hs' ->]|[Hs' ->]].
          * left. split; [by constructor|done].
          * right. split; [|done]. intros HF. inversion HF; subst. done.
        + right. split; [|done]. intros HF. inversion HF; subst. done. }
    destruct Hlist as [[HF ->]|[HF ->]].
    + left. split; [|done]. intros d Hd. inversion Hd; subst.
      * split; intros E; apply Hop; tauto.
      * rewrite Forall_forall in HF. eapply HF; eauto.
    + right. split; [|done]. intros Hs. apply HF. rewrite Forall_forall.
      intros c Hc d Hd. apply Hs. eapply subexpr_op; eauto.
Qed.

(** C6.  The post-hook of a kill-if statement whose condition has been
    lowered (the condition has an IR statement) appends a [KillIf] statement
    with that IR statement as its single argument exactly when no node of the
    condition's subtree is a [STMTBLOCK] or an [ARRAY_REF]; otherwise it
    reports an error, returns [VISIT_END] and leaves the IR as it was. *)
Theorem kill_if_lowering (condition : ASTExpr) (p : CodeGenPass) :
  (~ side_effect_free condition ->
     ModifyASTStmtKillIfPost condition p =
       Ok VISIT_END (set_errors (errors p ++ [kill_if_side_effect_msg]) p)) /\
  (side_effect_free condition ->
     forall cur blk q cond_stmt,
       curbb_ (ctx_ p) = Some cur ->
       bb_heap (ir p) !! cur = Some blk ->
       expr_to_ir_map_ (ctx_ p) !! expr_ptr condition = Some q ->
       stmt_heap (ir p) !! q = Some cond_stmt ->
       next_valnum (ir p) < INT_MAX ->
       exists p',
         ModifyASTStmtKillIfPost condition p = Ok VISIT_CONTINUE p' /\
         bbs (ir p') = bbs (ir p) /\
         bb_heap (ir p') =
           <[cur := set_stmts (stmts blk ++ [next_stmt (ir p)]) blk]> (bb_heap (ir p)) /\
         stmt_heap (ir p') =
           <[next_stmt (ir p) := kill_if_stmt (next_valnum (ir p)) q cond_stmt]>
             (stmt_heap (ir p)) /\
         errors p' = errors p).
Proof.
  split.
  - intros Hs. unfold ModifyASTStmtKillIfPost.
    destruct (VerifyNoSideEffects_spec condition (errors p)) as [[? _]|[_ Hv]]; [done|].
    destruct_pass p. run. rewrite Hv. done.
  - intros Hs cur blk q cs Hcur Hblk Hq Hcs Hnv. unfold ModifyASTStmtKillIfPost.
    destruct (VerifyNoSideEffects_spec condition (errors p)) as [[_ Hv]|[? _]]; [|done].
    destruct_pass p. subst.
    repeat (progress (run; rewrite ?Hv, ?Hq, ?Hcs, ?Hblk, ?int_succ_Ok by lia; no_bump)).
    eexists. split; [reflexivity|]. done.
Qed.

Lemma kill_if_lowering_witness :
  side_effect_free Examples.kill_if_cond /\
  (exists p',
     ModifyASTStmtKillIfPost Examples.kill_if_cond Examples.after_cond
       = Ok VISIT_CONTINUE p' /\
     bb_heap (ir p') !! 0%nat = Some (Build_IRBB "f" true [0%nat; 1%nat]) /\
     (type <$> stmt_heap (ir p') !! 1%nat) = Some IRStmtKillIf /\
     (args <$> stmt_heap (ir p') !! 1%nat) = Some [0%nat]) /\
  ModifyASTStmtKillIfPost Examples.kill_if_block Examples.in_entry
    = Ok VISIT_END
        (set_errors (errors Examples.in_entry ++ [kill_if_side_effect_msg])
           Examples.in_entry).
Proof.
  assert (Hsef : side_effect_free Examples.kill_if_cond).
  { intros d Hd. inversion Hd as [|e c d' Hc]; subst.
    - split; discriminate.
    - inversion Hc. }
  split; [exact Hsef|]. split.
  - destruct (kill_if_lowering Examples.kill_if_cond Examples.after_cond) as [_ H].
    destruct (H Hsef 0%nat (Build_IRBB "f" true [0%nat]) 0%nat
                (set_width 32 (set_has_constant true (set_constant 1
                   (set_valnum 1 (set_op IRStmtOpConst (set_type IRStmtExpr IRStmt_init))))))
                eq_refl eq_refl eq_refl eq_refl)
      as (p' & H1 & _ & H2 & H3 & _).
    { vm_compute. reflexivity. }
    exists p'. split; [exact H1|]. rewrite H2, H3. split; [|split]; reflexivity.
  - apply (kill_if_lowering Examples.kill_if_block Examples.in_entry).
    intros Hs. destruct (Hs _ (subexpr_refl _)) as [Hn _]. by apply Hn.
Defined.

(** ** Errors that do not stop the lowering *)

(** C3 fails on the code.  Writing to, or reading from, a definition that
    is neither a port nor a chan reports the error, and yet the post-hook
    goes on: the walk continues (it returns [true], the hook having returned
    [VISIT_CONTINUE]) and the write or read statement is appended to the
    current block after the error has been reported. *)
Theorem port_misuse_not_stopped :
  (exists p',
     ModifyASTStmt Examples.bb_addr 8 4 Examples.write_misuse Examples.in_entry
       = Ok true p' /\
     errors p' = ["Write to something not a port or chan"] /\
     (stmts <$> bb_heap (ir p') !! 0%nat) = Some [0%nat; 1%nat] /\
     (port_name <$> stmt_heap (ir p') !! 1%nat) = Some "__codegen_gensym__2" /\
     (args <$> stmt_heap (ir p') !! 1%nat) = Some [0%nat]) /\
  (exists p',
     ModifyASTStmt Examples.bb_addr 8 4 Examples.read_misuse Examples.in_entry
       = Ok true p' /\
     errors p' = ["Read from something not a port or chan"] /\
     (stmts <$> bb_heap (ir p') !! 0%nat) = Some [0%nat] /\
     (port_name <$> stmt_heap (ir p') !! 0%nat) = Some "__codegen_gensym__2") /\
  (exists p',
     ModifyASTStmtWritePost 3 Examples.bad_port (Examples.cst 2 7)
       (state_of (ModifyASTExpr Examples.bb_addr 8 2 (Examples.cst 2 7)
                    Examples.in_entry))
       = Ok VISIT_CONTINUE p' /\
     errors p' = ["Write to something not a port or chan"]).
Proof.
  split; [|split]; eexists; (split; [vm_compute; reflexivity|]);
    vm_compute; repeat split; reflexivity.
Qed.

(** ** The parser of type definitions *)

(** C10.  When the identifier and the opening brace of a type definition
    are followed by a token that is not a closing brace, [ParseTypeDef]
    dereferences the null [ASTRef<ASTTypeField>] it has just declared: the
    field is used before any field object is allocated. *)
Theorem ParseTypeDef_null_field (fuel : nat) (def : Parser.ASTTypeDef)
    (st : Parser.Parser) (tk_id tk_lb : Parser.Token) (rest : list Parser.Token) :
  Parser.tokens st = tk_id :: tk_lb :: rest ->
  Parser.tok_type tk_id = Parser.IDENT ->
  Parser.tok_type tk_lb = Parser.LBRACE ->
  Parser.tok_type (Parser.CurToken (Parser.Build_Parser rest (Parser.parse_errors st)))
    <> Parser.RBRACE ->
  Parser.ParseTypeDef (S fuel) def st = Parser.PNull.
Proof.
  intros Ht Hid Hlb Hnext. destruct st as [toks errs]. simpl in *. subst toks.
  unfold Parser.ParseTypeDef, Parser.ParseIdent, Parser.Consume, Parser.Expect,
    Parser.pbind, Parser.pret, Parser.advance, Parser.CurToken. simpl.
  rewrite Hid. simpl. rewrite Hlb. simpl.
  unfold Parser.TryConsume, Parser.TryExpect, Parser.pbind, Parser.CurToken in *.
  simpl in *. rewrite bool_decide_eq_false_2 by done. reflexivity.
Qed.

Lemma ParseTypeDef_null_field_witness :
  Parser.ParseTypeDef 1 (Parser.Build_ASTTypeDef None [])
    (Parser.Build_Parser Examples.typedef_tokens []) = Parser.PNull.
Proof.
  apply (ParseTypeDef_null_field 0 _ _
           (Parser.Build_Token Parser.IDENT "T") (Parser.Build_Token Parser.LBRACE "{")
           (tl (tl Examples.typedef_tokens))); [reflexivity | reflexivity | reflexivity |].
  simpl. discriminate.
Defined.

(** ** Relations that the whole walk respects *)

(** A transitive relation between states that every change outside the IR
    program and every primitive that writes the IR program respects is
    respected by every hook and by the walk over any AST. *)
Create HintDb resp.
Section Respects.
Variable R : CodeGenPass -> CodeGenPass -> Prop.
Hypothesis R_trans : forall p q r, R p q -> R q r -> R p r.
Hypothesis R_frame : forall p q, ir q = ir p -> R p q.
Hypothesis R_AddBB : forall pre, respects R (AddBB pre).
Hypothesis R_new_IRStmt : respects R new_IRStmt.
Hypothesis R_Valnum : respects R Valnum.
Hypothesis R_AddIRStmt : forall bb sp s e, respects R (AddIRStmt bb sp s e).
Hypothesis R_AddEntry : forall bb, respects R (AddEntry bb).
Hypothesis R_bb_set_label : forall bb l, respects R (bb_set_label bb l).
Hypothesis R_bb_set_is_entry : forall bb, respects R (bb_set_is_entry bb).
Hypothesis R_timevar_map_set : forall nm tv, respects R (timevar_map_set nm tv).
Hypothesis R_timevars_push : forall t, respects R (timevars_push t).
Hypothesis R_timing_model_set : forall v, respects R (timing_model_set v).
Hypothesis R_timevar_add_use : forall tv s, respects R (timevar_add_use tv s).
Hypothesis R_phi_add_input : forall q v b, respects R (phi_add_input q v b).

Lemma R_refl p : R p p.
Proof. by apply R_frame. Qed.

Lemma respects_ret {A} (a : A) : respects R (ret a).
Proof. intros p a' q [= _ <-]. apply R_refl. Qed.
Lemma respects_bind {A B} (m : M A) (k : A -> M B) :
  respects R m -> (forall a, respects R (k a)) -> respects R (bind m k).
Proof.
  intros Hm Hk p b q H. unfold bind in H. destruct (m p) as [a p1| |] eqn:E; try done.
  eapply R_trans; [eapply Hm; eauto | eapply Hk; eauto].
Qed.
Lemma respects_gets {A} (f : CodeGenPass -> A) : respects R (gets f).
Proof. intros p a q [= _ <-]. apply R_refl. Qed.
Lemma respects_undef {A} : respects R (@undef A).
Proof. intros p a q [=]. Qed.
Lemma respects_nofuel {A} : respects R (@nofuel A).
Proof. intros p a q [=]. Qed.
Lemma respects_of_option {A} (o : option A) : respects R (of_option o).
Proof. destruct o; [apply respects_ret | apply respects_undef]. Qed.
Lemma respects_modify (f : CodeGenPass -> CodeGenPass) :
  (forall p, ir (f p) = ir p) -> respects R (modify f).
Proof. intros Hf p a q [= _ <-]. by apply R_frame. Qed.
Lemma respects_int_succ z : respects R (int_succ z).
Proof. unfold int_succ. destruct (decide _); [apply respects_ret | apply respects_undef]. Qed.

#[local] Hint Resolve respects_ret respects_gets respects_undef respects_nofuel respects_of_option
  respects_int_succ R_AddBB R_new_IRStmt R_Valnum R_AddIRStmt R_AddEntry R_bb_set_label
  R_bb_set_is_entry R_timevar_map_set R_timevars_push R_timing_model_set R_timevar_add_use
  R_phi_add_input : resp.

Ltac resp_step :=
  first
    [ solve [eauto with resp]
    | apply respects_bind; [|intros]
    | apply respects_modify; intros []; reflexivity
    | match goal with
      | |- respects _ (if ?x then _ else _) => destruct x
      | |- respects _ (match ?x with _ => _ end) => destruct x
      | |- respects _ (let '(_, _) := ?x in _) => destruct x
      end ].
Ltac resp := repeat resp_step.

Lemma respects_modify_ctx f : (forall c, prog_ (f c) = prog_ c) -> respects R (modify_ctx f).
Proof. intros Hf. apply respects_modify. intros [c ? ?]. unfold ir. simpl. apply Hf. Qed.

Lemma respects_Error msg : respects R (Error msg).
Proof. unfold Error. resp. Qed.
Lemma respects_GenSym pre : respects R (GenSym pre).
Proof. unfold GenSym. resp. Qed.
Lemma respects_CurBB : respects R CurBB.
Proof. unfold CurBB. resp. Qed.
Lemma respects_SetCurBB b : respects R (SetCurBB b).
Proof. unfold SetCurBB. apply respects_modify_ctx. by intros []. Qed.
Lemma respects_GetIRStmt e : respects R (GetIRStmt e).
Proof. unfold GetIRStmt. resp. Qed.
Lemma respects_deref_bb b : respects R (deref_bb b).
Proof. unfold deref_bb. resp. Qed.
Lemma respects_deref_stmt b : respects R (deref_stmt b).
Proof. unfold deref_stmt. resp. Qed.
Lemma respects_AddIRStmt_expr s e : respects R (AddIRStmt_expr s e).
Proof. unfold AddIRStmt_expr. apply respects_modify_ctx. by intros []. Qed.
Lemma respects_c_back : respects R c_back.
Proof. unfold c_back. resp. Qed.
Lemma respects_modify_c_back f : respects R (modify_c_back f).
Proof. unfold modify_c_back. resp; auto using respects_c_back. Qed.
Lemma respects_Bindings_get : respects R Bindings_get.
Proof. unfold Bindings_get. resp. Qed.
Lemma respects_Bindings_modify f : respects R (Bindings_modify f).
Proof. unfold Bindings_modify. apply respects_modify_ctx. by intros []. Qed.
#[local] Hint Resolve respects_Error respects_GenSym respects_CurBB respects_SetCurBB respects_GetIRStmt
  respects_deref_bb respects_deref_stmt respects_AddIRStmt_expr respects_c_back
  respects_modify_c_back respects_Bindings_get respects_Bindings_modify : resp.
Lemma respects_Bindings_Push : respects R Bindings_Push.
Proof. unfold Bindings_Push. resp. Qed.
Lemma respects_Bindings_lookup l : respects R (Bindings_lookup l).
Proof. unfold Bindings_lookup. resp. Qed.
Lemma respects_ident_name e : respects R (ident_name e).
Proof. unfold ident_name. resp. Qed.
Lemma respects_set_ident_name e n : respects R (set_ident_name e n).
Proof. unfold set_ident_name. apply respects_modify_ctx. by intros []. Qed.
Lemma respects_new_ASTExpr : respects R new_ASTExpr.
Proof. unfold new_ASTExpr. resp. Qed.
Lemma respects_push_arg a s : respects R (push_arg a s).
Proof. unfold push_arg. resp. Qed.
Lemma respects_push_target a s : respects R (push_target a s).
Proof. unfold push_target. resp. Qed.
Lemma respects_for_each {A B} (l : list A) (body : A -> M (option B)) :
  (forall x, respects R (body x)) -> respects R (for_each l body).
Proof. intros Hb. induction l; simpl; resp. Qed.
#[local] Hint Resolve respects_Bindings_Push respects_Bindings_lookup respects_ident_name
  respects_set_ident_name respects_new_ASTExpr respects_push_arg respects_push_target : resp.
Lemma respects_loop_at i : respects R (loop_at i).
Proof. unfold loop_at. resp. Qed.
Lemma respects_modify_loop_at i f : respects R (modify_loop_at i f).
Proof. unfold modify_loop_at. resp. Qed.
Lemma respects_loop_back : respects R loop_back.
Proof. unfold loop_back. resp. Qed.
#[local] Hint Resolve respects_loop_at respects_modify_loop_at respects_loop_back : resp.
Lemma respects_modify_loop_back f : respects R (modify_loop_back f).
Proof. unfold modify_loop_back. resp. Qed.
#[local] Hint Resolve respects_modify_loop_back : resp.

Lemma respects_FindEntityDef_rec fuel : forall node t, respects R (FindEntityDef_rec fuel node t).
Proof. induction fuel; intros; simpl; resp. Qed.
Lemma respects_FindEntityDef depth node t : respects R (FindEntityDef depth node t).
Proof. apply respects_FindEntityDef_rec. Qed.
#[local] Hint Resolve respects_FindEntityDef : resp.

Section RespectsHooks.
Variable ModifyASTExpr : ASTExpr -> M bool.
Variable ModifyASTStmt : ASTStmt -> M bool.
Variable ModifyASTStmtBlock : list ASTStmt -> M bool.
Hypothesis HE : forall e, respects R (ModifyASTExpr e).
Hypothesis HS : forall e, respects R (ModifyASTStmt e).
Hypothesis HB : forall e, respects R (ModifyASTStmtBlock e).
Variable bb_addr : nat -> nat.
Variable kIRStmtWidthTxnID : Z.
Variable depth : nat.
#[local] Hint Resolve HE HS HB : resp.

Lemma respects_FunctionDefPre n : respects R (ModifyASTFunctionDefPre n).
Proof. unfold ModifyASTFunctionDefPre. resp. Qed.
Lemma respects_FunctionDefPost n : respects R (ModifyASTFunctionDefPost n).
Proof. unfold ModifyASTFunctionDefPost. resp. Qed.
Lemma respects_LetPost l e : respects R (ModifyASTStmtLetPost l e).
Proof. unfold ModifyASTStmtLetPost. resp. Qed.
Lemma respects_AssignPre l e : respects R (ModifyASTStmtAssignPre ModifyASTExpr l e).
Proof. unfold ModifyASTStmtAssignPre. resp. Qed.
Lemma respects_AssignPost l e : respects R (ModifyASTStmtAssignPost ModifyASTExpr depth l e).
Proof. unfold ModifyASTStmtAssignPost. resp. Qed.
Lemma respects_WritePost l e : respects R (ModifyASTStmtWritePost depth l e).
Proof. unfold ModifyASTStmtWritePost. resp. Qed.
Lemma respects_KillPost : respects R ModifyASTStmtKillPost.
Proof. unfold ModifyASTStmtKillPost. resp. Qed.
Lemma respects_KillYoungerPost : respects R (ModifyASTStmtKillYoungerPost ModifyASTStmtBlock).
Proof. unfold ModifyASTStmtKillYoungerPost. resp. apply respects_for_each. intros. resp. Qed.
Lemma respects_KillIfPost c : respects R (ModifyASTStmtKillIfPost c).
Proof. unfold ModifyASTStmtKillIfPost. resp. Qed.
Lemma respects_TimingPre : respects R ModifyASTStmtTimingPre.
Proof. unfold ModifyASTStmtTimingPre. resp. Qed.
Lemma respects_TimingPost : respects R ModifyASTStmtTimingPost.
Proof. unfold ModifyASTStmtTimingPost. resp. Qed.
Lemma respects_StagePost o : respects R (ModifyASTStmtStagePost o).
Proof. unfold ModifyASTStmtStagePost. resp. Qed.
Lemma respects_fold_left {A B} (f : M B -> A -> M B) l : forall init,
  (forall acc x, respects R acc -> respects R (f acc x)) -> respects R init -> respects R (fold_left f l init).
Proof. induction l; simpl; intros; auto. Qed.
Lemma respects_ExprPost e : respects R (ModifyASTExprPost depth e).
Proof.
  unfold ModifyASTExprPost. resp.
  all: try (apply respects_fold_left; [intros; resp | resp]).
Qed.

Lemma respects_StmtExprPost : respects R ModifyASTStmtExprPost.
Proof. unfold ModifyASTStmtExprPost. resp. Qed.
Lemma respects_NestedFuncPre b : respects R (ModifyASTStmtNestedFuncPre ModifyASTStmtBlock b).
Proof. unfold ModifyASTStmtNestedFuncPre. resp. Qed.
Lemma respects_OnKillYoungerPre b : respects R (ModifyASTStmtOnKillYoungerPre b).
Proof. unfold ModifyASTStmtOnKillYoungerPre. resp. Qed.
Lemma respects_BypassStartPost a b : respects R (ModifyASTStmtBypassStartPost depth a b).
Proof. unfold ModifyASTStmtBypassStartPost. resp. Qed.
Lemma respects_BypassEndPost a : respects R (ModifyASTStmtBypassEndPost depth a).
Proof. unfold ModifyASTStmtBypassEndPost. resp. Qed.
Lemma respects_BypassWritePost a b : respects R (ModifyASTStmtBypassWritePost depth a b).
Proof. unfold ModifyASTStmtBypassWritePost. resp. Qed.
Lemma respects_PragmaPost a b : respects R (ModifyASTPragmaPost a b).
Proof. unfold ModifyASTPragmaPost. resp. Qed.
Lemma respects_IfElseMerge a b c d : respects R (IfElseMerge a b c d).
Proof.
  unfold IfElseMerge, IfElseJoin. resp. apply respects_for_each. intros.
  unfold IfElsePhi. resp.
Qed.
#[local] Hint Resolve respects_IfElseMerge : resp.
Lemma respects_IfPre a b c : respects R (ModifyASTStmtIfPre ModifyASTExpr ModifyASTStmt a b c).
Proof. unfold ModifyASTStmtIfPre. resp. Qed.
Lemma respects_AddWhileLoopPhiNodeInputs a b c : respects R (AddWhileLoopPhiNodeInputs a b c).
Proof.
  unfold AddWhileLoopPhiNodeInputs. resp. apply respects_for_each. intros. resp.
  all: apply respects_for_each; intros; resp.
Qed.
Lemma respects_WhileHeaderPhis a b l : forall phis, respects R (WhileHeaderPhis a b l phis).
Proof. induction l; intros; simpl; resp. Qed.
#[local] Hint Resolve respects_AddWhileLoopPhiNodeInputs respects_WhileHeaderPhis : resp.
Lemma respects_WhilePre a b c :
  respects R (ModifyASTStmtWhilePre ModifyASTExpr ModifyASTStmt bb_addr a b c).
Proof. unfold ModifyASTStmtWhilePre. resp. Qed.
Lemma respects_FindLoopFrame l : respects R (FindLoopFrame l).
Proof. unfold FindLoopFrame. resp. Qed.
Lemma respects_HandleBreakContinue i b : respects R (HandleBreakContinue bb_addr i b).
Proof. unfold HandleBreakContinue. resp. Qed.
#[local] Hint Resolve respects_FindLoopFrame respects_HandleBreakContinue : resp.
Lemma respects_BreakPost l : respects R (ModifyASTStmtBreakPost bb_addr l).
Proof. unfold ModifyASTStmtBreakPost. resp. Qed.
Lemma respects_ContinuePost l : respects R (ModifyASTStmtContinuePost bb_addr l).
Proof. unfold ModifyASTStmtContinuePost. resp. Qed.
Lemma respects_SpawnPre b : respects R (ModifyASTStmtSpawnPre ModifyASTStmt kIRStmtWidthTxnID b).
Proof. unfold ModifyASTStmtSpawnPre. resp. Qed.
End RespectsHooks.

Section RespectsWalk.
Variable bb_addr : nat -> nat.
Variable kIRStmtWidthTxnID : Z.
#[local] Hint Resolve respects_FunctionDefPre respects_FunctionDefPost respects_LetPost
  respects_AssignPre respects_AssignPost respects_WritePost respects_KillPost
  respects_KillYoungerPost respects_KillIfPost respects_TimingPre respects_TimingPost
  respects_StagePost respects_ExprPost respects_StmtExprPost respects_NestedFuncPre
  respects_OnKillYoungerPre respects_BypassStartPost respects_BypassEndPost
  respects_BypassWritePost respects_IfPre respects_WhilePre respects_BreakPost
  respects_ContinuePost respects_SpawnPre : resp.

Lemma respects_visit_node pre children post :
  respects R pre -> respects R children -> respects R post ->
  respects R (visit_node pre children post).
Proof. intros. unfold visit_node. resp. Qed.
Lemma respects_visit_all {A} (visit : A -> M bool) l :
  (forall x, respects R (visit x)) -> respects R (visit_all visit l).
Proof. intros. induction l; simpl; resp. Qed.
Lemma respects_continue_ : respects R continue_.
Proof. unfold continue_. resp. Qed.
#[local] Hint Resolve respects_visit_all respects_continue_ : resp.

Lemma respects_walk fuel :
  (forall e, respects R (ModifyASTExpr bb_addr kIRStmtWidthTxnID fuel e)) /\
  (forall s, respects R (ModifyASTStmt bb_addr kIRStmtWidthTxnID fuel s)) /\
  (forall b, respects R (ModifyASTStmtBlock bb_addr kIRStmtWidthTxnID fuel b)).
Proof.
  induction fuel as [|n (IHe & IHs & IHb)].
  - repeat split; intros; simpl; resp.
  - repeat split.
    + intros e. simpl. apply respects_visit_node; resp.
    + intros s. destruct s; simpl; try (apply respects_visit_node; resp); resp.
    + intros b. simpl. resp.
Qed.

End RespectsWalk.
End Respects.

(** ** Value numbers *)



(** Symbolic execution of a run that is known to have ended: the
    hypothesis is simplified, and split at every test it still contains. *)
Ltac runh := repeat (progress (prim; unf; simpl in *)).
Ltac split_run H :=
  runh; try done;
  repeat (match type of H with
          | context [int_succ ?z] => unfold int_succ in H
          | context [decide ?P] => destruct (decide P)
          | context [match ?x with _ => _ end] =>
              lazymatch x with
              | context [match _ with _ => _ end] => fail
              | _ => destruct x eqn:?
              end
          end; runh; try done).







Section ValnumInvariant.
Variable bb_addr : BBPtr -> nat.
Variable kIRStmtWidthTxnID : Z.

End ValnumInvariant.



(** ** Kill-younger and the blocks registered for it *)

Lemma appends_only_trans p q r : appends_only p q -> appends_only q r -> appends_only p r.
Proof.
  intros Hpq Hqr Hp. destruct (Hpq Hp) as [Hq Hx]. destruct (Hqr Hq) as [Hr Hy].
  split; [done|]. intros b blk Hb. destruct (Hx _ _ Hb) as (blk1 & Hb1 & Hp1).
  destruct (Hy _ _ Hb1) as (blk2 & Hb2 & Hp2). exists blk2. split; [done|]. by etrans.
Qed.
Lemma appends_only_same p q :
  bb_heap (ir q) = bb_heap (ir p) -> next_bb (ir q) = next_bb (ir p) -> appends_only p q.
Proof.
  intros Hh Hn Hp. split.
  - intros b. rewrite Hh, Hn. apply Hp.
  - intros b blk Hb. exists blk. by rewrite Hh.
Qed.
Lemma appends_only_frame p q : ir q = ir p -> appends_only p q.
Proof. intros Hir. apply appends_only_same; by rewrite Hir. Qed.

Ltac appends_same :=
  let p := fresh "p" in let r := fresh "r" in let q := fresh "q" in let H := fresh "H" in
  intros p r q H; destruct_pass p; split_run H;
  simplify_eq; apply appends_only_same; simpl; done.

Lemma new_IRStmt_appends : respects appends_only new_IRStmt.
Proof. appends_same. Qed.
Lemma Valnum_appends : respects appends_only Valnum.
Proof. appends_same. Qed.
Lemma AddEntry_appends bb : respects appends_only (AddEntry bb).
Proof. appends_same. Qed.
Lemma timevar_map_set_appends nm tv : respects appends_only (timevar_map_set nm tv).
Proof. appends_same. Qed.
Lemma timevars_push_appends t : respects appends_only (timevars_push t).
Proof. appends_same. Qed.
Lemma timing_model_set_appends v : respects appends_only (timing_model_set v).
Proof. unfold timing_model_set. appends_same. Qed.
Lemma timevar_add_use_appends tv s : respects appends_only (timevar_add_use tv s).
Proof. appends_same. Qed.
Lemma phi_add_input_appends q v b : respects appends_only (phi_add_input q v b).
Proof. unfold phi_add_input. appends_same. Qed.

(** Overwriting an allocated block with one that extends it. *)
Lemma appends_only_update p q b blk blk' :
  bb_heap (ir p) !! b = Some blk ->
  stmts blk `prefix_of` stmts blk' ->
  bb_heap (ir q) = <[b := blk']> (bb_heap (ir p)) ->
  next_bb (ir q) = next_bb (ir p) ->
  appends_only p q.
Proof.
  intros Hb Hpre Hh Hn Hp. split.
  - intros x. rewrite Hh, Hn. intros Hx. apply Hp.
    destruct (decide (b = x)) as [->|Hne]; [by rewrite Hb|]. by rewrite lookup_insert_ne in Hx.
  - intros x blkx Hx. rewrite Hh. destruct (decide (b = x)) as [->|Hne].
    + rewrite lookup_insert_eq. exists blk'. split; [done|]. by simplify_eq.
    + rewrite lookup_insert_ne by done. by exists blkx.
Qed.

Ltac update_bb_appends :=
  match goal with
  | Hb : _ !! ?b = Some ?i |- _ =>
      eapply (appends_only_update _ _ b i);
        [exact Hb | | simpl; reflexivity | reflexivity];
        simpl; first [reflexivity | by eexists]
  end.

Lemma bb_set_label_appends bb l : respects appends_only (bb_set_label bb l).
Proof.
  intros p r q H. destruct_pass p. split_run H. simplify_eq.
  update_bb_appends.
Qed.
Lemma bb_set_is_entry_appends bb : respects appends_only (bb_set_is_entry bb).
Proof.
  intros p r q H. destruct_pass p. split_run H. simplify_eq.
  update_bb_appends.
Qed.
Lemma AddIRStmt_appends bb sp s e : respects appends_only (AddIRStmt bb sp s e).
Proof.
  intros p r q H. destruct_pass p. unfold AddIRStmt in H. split_run H.
  all: simplify_eq; update_bb_appends.
Qed.
Lemma AddBB_appends pre : respects appends_only (AddBB pre).
Proof.
  intros p r q H. destruct_pass p. unfold AddBB, GenSym in H. split_run H.
  all: simplify_eq; intros Hp; unfold wf_bb, bb_extends, ir in *; simpl in *; split.
  all: intros b.
  1,3: intros Hb; destruct (decide (r = b)) as [->|Hne]; [lia|];
    rewrite lookup_insert_ne in Hb by done; specialize (Hp _ Hb); lia.
  all: intros blk Hb; exists blk; split; [|done];
    rewrite lookup_insert_ne; [done|]; intros ->;
    assert (b < b)%nat; [|lia]; apply Hp; by rewrite Hb.
Qed.

Lemma walk_appends_only bb_addr kIRStmtWidthTxnID fuel :
  (forall e, respects appends_only (ModifyASTExpr bb_addr kIRStmtWidthTxnID fuel e)) /\
  (forall s, respects appends_only (ModifyASTStmt bb_addr kIRStmtWidthTxnID fuel s)) /\
  (forall b, respects appends_only (ModifyASTStmtBlock bb_addr kIRStmtWidthTxnID fuel b)).
Proof.
  apply (respects_walk appends_only);
    eauto using appends_only_trans, appends_only_frame, AddBB_appends,
      new_IRStmt_appends, Valnum_appends, AddIRStmt_appends, AddEntry_appends,
      bb_set_label_appends, bb_set_is_entry_appends, timevar_map_set_appends,
      timevars_push_appends, timing_model_set_appends, timevar_add_use_appends,
      phi_add_input_appends.
Qed.

Section KillYounger.
Variable visit : list ASTStmt -> M bool.

Lemma replay_step n b r p :
  for_each (b :: r) (replay_body visit n) p =
    match visit b p with
    | Ok true p1 =>
        match last (c_ p1) with
        | Some fr1 =>
            if decide (length (onkillyoungers fr1) = n)
            then for_each r (replay_body visit n) p1
            else Undef
        | None => Undef
        end
    | Ok false p1 => Ok (Some VISIT_TERMINAL) p1
    | Undef => Undef
    | NoFuel => NoFuel
    end.
Proof.
  simpl. unfold replay_body at 1. unfold bind at 1 2.
  destruct (visit b p) as [[] p1| |]; simpl; try done.
  repeat (progress (unfold bind, c_back, gets, of_option, ret, undef; simpl)).
  destruct (last (c_ p1)); simpl; [|done]. by destruct (decide _).
Qed.

Lemma replay_in_order n blocks : forall p p',
  for_each blocks (replay_body visit n) p = Ok None p' <->
  lowered_in_order visit n blocks p p'.
Proof.
  induction blocks as [|b r IH]; intros p p'.
  - simpl. split.
    + intros H. unfold ret in H. simplify_eq. constructor.
    + intros H. inversion H; subst. done.
  - rewrite replay_step. split.
    + intros H. destruct (visit b p) as [[] p1| |] eqn:Hv; try done.
      destruct (last (c_ p1)) as [fr1|] eqn:Hl; [|done].
      destruct (decide _) as [Hn|]; [|done]. apply IH in H. econstructor; eauto.
    + intros H. inversion H as [|b' r' p0 p1 q fr1 Hv Hl Hn Hrest]; subst.
      rewrite Hv, Hl. destruct (decide _); [|done]. by apply IH.
Qed.

Lemma replay_stops n blocks : forall p v q,
  for_each blocks (replay_body visit n) p = Ok (Some v) q -> v = VISIT_TERMINAL.
Proof.
  induction blocks as [|b r IH]; intros p v q; [by intros [=]|].
  rewrite replay_step. destruct (visit b p) as [[] p1| |]; try done.
  - destruct (last (c_ p1)); [|done]. destruct (decide _); [|done]. apply IH.
  - by intros [= <- _].
Qed.

Lemma KillYoungerPost_eq p fr cur blk :
  last (c_ p) = Some fr ->
  curbb_ (ctx_ p) = Some cur ->
  bb_heap (ir p) !! cur = Some blk ->
  next_valnum (ir p) < INT_MAX ->
  ModifyASTStmtKillYoungerPost visit p =
    bind (for_each (onkillyoungers fr) (replay_body visit (length (onkillyoungers fr))))
      (fun r => match r with Some res => ret res | None => ret VISIT_CONTINUE end)
      (emit cur blk kill_younger_stmt p).
Proof.
  intros Hfr Hcur Hblk Hnv. unfold ModifyASTStmtKillYoungerPost, emit.
  destruct_pass p. subst.
  repeat (progress (run; rewrite ?Hblk, ?int_succ_Ok by lia; no_bump)).
  unfold c_back. run. rewrite Hfr. reflexivity.
Qed.

(** C9.  The pre-hook of an on-kill-younger block stores the (cloned) block
    at the end of the list of the current function frame, emits nothing and
    returns [VISIT_TERMINAL], so the block is not lowered where it stands.
    The post-hook of a kill-younger statement first appends the [KillYounger]
    statement to the current block; it then returns [VISIT_CONTINUE] exactly
    when the registered blocks are lowered one after the other, in the order
    of their registration, starting from the state with the [KillYounger]
    statement in place.  When the walker only ever appends to blocks, the
    current block afterwards still begins with its old statements followed by
    the [KillYounger] statement: what the replayed blocks emit comes after
    it. *)
Theorem kill_younger_order (body : list ASTStmt) (p : CodeGenPass) (fr : FuncFrame)
    (cur : BBPtr) (blk : IRBB) :
  last (c_ p) = Some fr ->
  curbb_ (ctx_ p) = Some cur ->
  bb_heap (ir p) !! cur = Some blk ->
  next_valnum (ir p) < INT_MAX ->
  ModifyASTStmtOnKillYoungerPre body p =
    Ok VISIT_TERMINAL
      (set_c_ (removelast (c_ p) ++
               [set_onkillyoungers (onkillyoungers fr ++ [body]) fr]) p) /\
  (forall p',
     ModifyASTStmtKillYoungerPost visit p = Ok VISIT_CONTINUE p' <->
     lowered_in_order visit (length (onkillyoungers fr)) (onkillyoungers fr)
       (emit cur blk kill_younger_stmt p) p') /\
  ((forall b, respects appends_only (visit b)) -> wf_bb p ->
   forall r p',
     ModifyASTStmtKillYoungerPost visit p = Ok r p' ->
     exists blk',
       bb_heap (ir p') !! cur = Some blk' /\
       (stmts blk ++ [next_stmt (ir p)]) `prefix_of` stmts blk').
Proof.
  intros Hfr Hcur Hblk Hnv. split; [|split].
  - unfold ModifyASTStmtOnKillYoungerPre, CloneAST. destruct_pass p. run.
    rewrite Hfr. reflexivity.
  - intros p'. rewrite (KillYoungerPost_eq p fr cur blk) by done.
    rewrite <- replay_in_order. unfold bind.
    destruct (for_each _ _ _) as [[v|] q| |] eqn:Hf; try (split; done).
    + apply replay_stops in Hf as ->. unfold ret. split; intros ?; simplify_eq.
    + unfold ret. split; intros ?; by simplify_eq.
  - intros Hv Hwf r p'. rewrite (KillYoungerPost_eq p fr cur blk) by done.
    intros H. apply bind_Ok_inv in H as (o & q & Hf & Hret).
    assert (q = p') as -> by (destruct o; unfold ret in Hret; by simplify_eq).
    assert (Hrep : forall n b, respects appends_only (replay_body visit n b)).
    { intros n b. unfold replay_body.
      apply respects_bind; eauto using appends_only_trans.
      intros [].
      - simpl. intros p0 a q0 H0. split_run H0. simplify_eq. by apply appends_only_frame.
      - simpl. intros ? ? ? H0. unfold ret in H0. simplify_eq. by apply appends_only_frame. }
    pose proof (respects_for_each appends_only appends_only_trans appends_only_frame
                  _ _ (Hrep _) _ _ _ Hf) as Happ.
    destruct Happ as [_ Hext].
    { intros b. unfold emit, ir. simpl. intros Hb. apply Hwf.
      destruct (decide (cur = b)) as [<-|Hne]; [by rewrite Hblk|].
      by rewrite lookup_insert_ne in Hb. }
    apply (Hext cur (set_stmts (stmts blk ++ [next_stmt (ir p)]) blk)).
    unfold emit, ir. simpl. by rewrite lookup_insert_eq.
Qed.
End KillYounger.

Lemma kill_younger_order_witness :
  exists blk',
    bb_heap (ir (state_of (ModifyASTStmtKillYoungerPost Examples.lower_block
                             Examples.registered))) !! 0%nat = Some blk' /\
    [0%nat] `prefix_of` stmts blk'.
Proof.
  destruct (kill_younger_order Examples.lower_block [] Examples.registered
              (Build_FuncFrame [] [] [] [Examples.registered_block] None)
              0%nat (Build_IRBB "f" true []) eq_refl eq_refl eq_refl)
    as (_ & _ & H).
  { vm_compute. reflexivity. }
  apply (H (fun b => proj2 (proj2 (walk_appends_only Examples.bb_addr 8 5)) b))
    with (r := VISIT_CONTINUE).
  - assert (Hall : map_Forall (fun b _ => (b < 1)%nat)
                     (bb_heap (ir Examples.registered))).
    { apply (bool_decide_unpack _). vm_compute. exact I. }
    intros b [blk Hb]. exact (Hall b blk Hb).
  - vm_compute. reflexivity.
Defined.

(** ** The merge of an if/else *)





Section MergeLoop.
Variables (if_end else_end merge : BBPtr) (bi be : IRBB).
Hypothesis Hne1 : if_end <> merge.
Hypothesis Hne2 : else_end <> merge.

End MergeLoop.


Section SortedKeys.
Context {K V : Type} (key : K -> nat).



End SortedKeys.







(** ** Removal of unreachable blocks *)

Lemma fold_left_M {A B : Type} (f : B -> A -> M B) (l : list A) :
  forall (acc : M B) p,
    fold_left (fun acc x => r <- acc ;; f r x) l acc p =
    match acc p with
    | Ok r p' => fold_left (fun acc x => r <- acc ;; f r x) l (ret r) p'
    | Undef => Undef
    | NoFuel => NoFuel
    end.
Proof.
  induction l as [|x l IH]; intros acc p; simpl.
  - unfold ret. by destruct (acc p).
  - rewrite IH. unfold bind at 1. destruct (acc p) as [r p'| |]; [|done|done].
    symmetry. rewrite IH. reflexivity.
Qed.

Lemma Succs_eq root :
  Succs root =
  (blk <- deref_bb (Some root) ;;
   fold_left (fun acc q => l <- acc ;; succs_step l q) (stmts blk) (ret [])).
Proof. reflexivity. Qed.

Ltac mrun :=
  repeat (progress (unfold succs_step, deref_stmt, deref_bb, of_option, gets, bind,
                      ret, undef, nofuel in *; simpl in *)).

Lemma succs_fold_sim (l : list StmtPtr) :
  forall acc p res p',
    fold_left (fun acc q => l <- acc ;; succs_step l q) l (ret acc) p = Ok res p' ->
    p' = p /\
    forall p1,
      (forall q s, q ∈ l -> stmt_heap (ir p) !! q = Some s ->
         exists s', stmt_heap (ir p1) !! q = Some s' /\ type s' = type s /\
                    (type s <> IRStmtPhi -> targets s' = targets s)) ->
      fold_left (fun acc q => l <- acc ;; succs_step l q) l (ret acc) p1 = Ok res p1.
Proof.
  induction l as [|q l IH]; intros acc p res p' H; simpl in *.
  - injection H as <- <-. by split.
  - rewrite fold_left_M in H.
    assert (Hq : exists s, stmt_heap (ir p) !! q = Some s).
    { destruct (stmt_heap (ir p) !! q) as [s|] eqn:Hs; [by eexists|]. exfalso.
      mrun. by rewrite Hs in H. }
    destruct Hq as [s Hs].
    assert (Hstep : forall p2 s2, stmt_heap (ir p2) !! q = Some s2 ->
               bind (ret acc) (fun l => succs_step l q) p2 =
               Ok (if bool_decide (type s2 = IRStmtIf \/ type s2 = IRStmtJmp
                                   \/ type s2 = IRStmtSpawn)
                   then acc ++ targets s2 else acc) p2).
    { intros p2 s2 H2. clear -H2. mrun. by rewrite H2. }
    rewrite (Hstep p s Hs) in H. apply IH in H as [-> Hsim]. split; [done|].
    intros p1 Hp1. rewrite fold_left_M.
    destruct (Hp1 q s ltac:(left) Hs) as (s' & Hs' & Ht & Htg).
    rewrite (Hstep p1 s' Hs'). rewrite Ht.
    assert (Heq : (if bool_decide (type s = IRStmtIf \/ type s = IRStmtJmp
                                   \/ type s = IRStmtSpawn)
                   then acc ++ targets s' else acc) =
                  (if bool_decide (type s = IRStmtIf \/ type s = IRStmtJmp
                                   \/ type s = IRStmtSpawn)
                   then acc ++ targets s else acc)).
    { case_bool_decide as Hc; [|done]. rewrite Htg; [done|].
      intros Hphi. rewrite Hphi in Hc. by destruct Hc as [|[|]]. }
    rewrite Heq. apply Hsim. intros q' s0 Hq' Hs0. apply (Hp1 q' s0); [by right|done].
Qed.

Lemma Succs_sim root p l p' :
  Succs root p = Ok l p' ->
  p' = p /\
  forall X p1, root ∈ X -> same_flow X p p1 -> Succs root p1 = Ok l p1.
Proof.
  rewrite Succs_eq. intros H.
  assert (Hb : exists blk, bb_heap (ir p) !! root = Some blk).
  { destruct (bb_heap (ir p) !! root) as [blk|] eqn:Hb; [by eexists|]. exfalso.
    mrun. by rewrite Hb in H. }
  destruct Hb as [blk Hblk].
  assert (Hd : forall p2, bb_heap (ir p2) !! root = Some blk ->
             forall k : IRBB -> M (list BBPtr),
               bind (deref_bb (Some root)) k p2 = k blk p2).
  { intros p2 H2 k. clear -H2. mrun. by rewrite H2. }
  rewrite (Hd p Hblk) in H. apply succs_fold_sim in H as [-> Hsim]. split; [done|].
  intros X p1 HX Hsf. destruct (Hsf root blk HX Hblk) as [Hb1 Hst].
  rewrite (Hd p1 Hb1). apply Hsim. intros q s Hq Hs. by apply Hst.
Qed.

Lemma mark_each_marks (mark : gset nat -> BBPtr -> M (gset nat)) (l : list BBPtr) :
  (forall s b, marks (mark s b) s) ->
  forall s, marks (mark_each mark l s) s.
Proof.
  intros Hmark. induction l as [|b l IH]; intros s p s' p' H; simpl in *.
  - injection H as <- <-. split; [done|]. split; [done|]. done.
  - unfold bind in H. destruct (mark s b p) as [s1 p1'| |] eqn:Hm; [|done|done].
    destruct (Hmark s b p s1 p1' Hm) as (-> & Hsub & Hsim).
    destruct (IH s1 p s' p' H) as (-> & Hsub' & Hsim').
    split; [done|]. split; [by transitivity s1|].
    intros X p1 HX Hsf. unfold bind.
    rewrite (Hsim X p1) by (done || by transitivity s'). by apply (Hsim' X).
Qed.

Lemma MarkSuccs_marks (fuel : nat) :
  forall s root, marks (MarkSuccs fuel s root) s /\
                 forall p s' p', MarkSuccs fuel s root p = Ok s' p' -> root ∈ s'.
Proof.
  induction fuel as [|n IH]; intros s root.
  - simpl. destruct (decide (root ∈ s)) as [Hin|Hnot].
    + split.
      * intros p s' p' H. injection H as <- <-. split; [done|]. split; done.
      * intros p s' p' H. by injection H as <- <-.
    + split; intros p s' p' H; done.
  - simpl. destruct (decide (root ∈ s)) as [Hin|Hnot].
    + split.
      * intros p s' p' H. injection H as <- <-. split; [done|]. split; done.
      * intros p s' p' H. by injection H as <- <-.
    + assert (Hme : forall l s0, marks (mark_each (MarkSuccs n) l s0) s0).
      { intros l. apply mark_each_marks. intros s0 b. apply IH. }
      split.
      * intros p s' p' H. unfold bind in H.
        destruct (Succs root p) as [l p0| |] eqn:Hs; [|done|done].
        destruct (Succs_sim root p l p0 Hs) as [-> Hsucc].
        destruct (Hme l _ p s' p' H) as (-> & Hsub & Hsim).
        assert (Hroot : root ∈ s').
        { apply Hsub, elem_of_union_l. by apply elem_of_singleton. }
        split; [done|]. split.
        { transitivity ({[root]} ∪ s); [apply union_subseteq_r|done]. }
        intros X p1 HX Hsf. unfold bind.
        rewrite (Hsucc X p1) by (done || by apply HX). by apply (Hsim X).
      * intros p s' p' H. unfold bind in H.
        destruct (Succs root p) as [l p0| |] eqn:Hs; [|done|done].
        destruct (Succs_sim root p l p0 Hs) as [-> Hsucc].
        destruct (Hme l _ p s' p' H) as (-> & Hsub & Hsim).
        apply Hsub, elem_of_union_l. by apply elem_of_singleton.
Qed.

Lemma mark_roots_eq fuel bb reachable :
  mark_roots fuel bb reachable =
  (blk <- deref_bb (Some bb) ;;
   reachable <- (if is_entry blk then MarkSuccs fuel reachable bb else ret reachable) ;;
   fold_left (fun acc q => r <- acc ;; spawn_step fuel r q) (stmts blk) (ret reachable)).
Proof. reflexivity. Qed.

Lemma spawn_fold_sim (fuel : nat) (l : list StmtPtr) :
  forall r p r' p',
    fold_left (fun acc q => r <- acc ;; spawn_step fuel r q) l (ret r) p = Ok r' p' ->
    p' = p /\ r ⊆ r' /\
    (forall X p1,
       r' ⊆ X -> same_flow X p p1 ->
       (forall q s, q ∈ l -> stmt_heap (ir p) !! q = Some s ->
          exists s', stmt_heap (ir p1) !! q = Some s' /\ type s' = type s /\
                     (type s <> IRStmtPhi -> targets s' = targets s)) ->
       fold_left (fun acc q => r <- acc ;; spawn_step fuel r q) l (ret r) p1 = Ok r' p1) /\
    ((forall q, q ∈ l -> not_spawn p q) -> r' = r).
Proof.
  induction l as [|q l IH]; intros r p r' p' H; simpl in *.
  - injection H as <- <-. split; [done|]. split; [done|]. split; done.
  - rewrite fold_left_M in H.
    destruct (stmt_heap (ir p) !! q) as [s|] eqn:Hs;
      [|exfalso; unfold spawn_step in H; mrun; by rewrite Hs in H].
    assert (Hstep : forall p2 s2, stmt_heap (ir p2) !! q = Some s2 ->
               bind (ret r) (fun r => spawn_step fuel r q) p2 =
               (if bool_decide (type s2 = IRStmtSpawn)
                then (t0 <- of_option (targets s2 !! 0%nat) ;; MarkSuccs fuel r t0)
                else ret r) p2).
    { intros p2 s2 H2. clear -H2. unfold spawn_step. mrun. by rewrite H2. }
    rewrite (Hstep p s Hs) in H.
    destruct (bool_decide (type s = IRStmtSpawn)) eqn:Hsp.
    + apply bool_decide_eq_true in Hsp.
      destruct (targets s !! 0%nat) as [t0|] eqn:Ht0; [|by mrun].
      assert (Hb : forall p2, bind (of_option (Some t0)) (fun t0 => MarkSuccs fuel r t0) p2
                              = MarkSuccs fuel r t0 p2) by done.
      rewrite Hb in H.
      destruct (MarkSuccs fuel r t0 p) as [r1 p0| |] eqn:Hm; [|done|done].
      destruct (proj1 (MarkSuccs_marks fuel r t0) p r1 p0 Hm) as (-> & Hsub1 & Hsim1).
      destruct (IH r1 p r' p' H) as (-> & Hsub & Hsim & _).
      split; [done|]. split; [by transitivity r1|]. split.
      * intros X p1 HX Hsf Hst. rewrite fold_left_M.
        destruct (Hst q s ltac:(left) Hs) as (s' & Hs' & Hty & Htg).
        rewrite (Hstep p1 s' Hs'). rewrite Hty, bool_decide_eq_true_2 by done.
        rewrite Htg by (rewrite Hsp; done). rewrite Ht0, Hb.
        rewrite (Hsim1 X p1) by (done || by transitivity r'). apply (Hsim X); [done..|].
        intros q' s0 Hq'. apply Hst. by right.
      * intros Hno. exfalso. apply (Hno q ltac:(left)). unfold not_spawn.
        by rewrite Hs, <- Hsp.
    + apply bool_decide_eq_false in Hsp.
      destruct (IH r p r' p' H) as (-> & Hsub & Hsim & Hskip).
      split; [done|]. split; [done|]. split.
      * intros X p1 HX Hsf Hst. rewrite fold_left_M.
        destruct (Hst q s ltac:(left) Hs) as (s' & Hs' & Hty & Htg).
        rewrite (Hstep p1 s' Hs'). rewrite Hty, bool_decide_eq_false_2 by done.
        apply (Hsim X); [done..|]. intros q' s0 Hq'. apply Hst. by right.
      * intros Hno. apply Hskip. intros q' Hq'. apply Hno. by right.
Qed.

Lemma mark_roots_sim (fuel : nat) (bb : BBPtr) (r : gset nat) p r' p' :
  mark_roots fuel bb r p = Ok r' p' ->
  p' = p /\ r ⊆ r' /\
  (forall X p1, r' ⊆ X -> bb ∈ X -> same_flow X p p1 ->
                mark_roots fuel bb r p1 = Ok r' p1) /\
  (bb ∉ r' ->
   (forall blk q, bb_heap (ir p) !! bb = Some blk -> q ∈ stmts blk -> not_spawn p q) ->
   r' = r).
Proof.
  rewrite mark_roots_eq. intros H.
  destruct (bb_heap (ir p) !! bb) as [blk|] eqn:Hblk; [|exfalso; mrun; by rewrite Hblk in H].
  assert (Hd : forall p2, bb_heap (ir p2) !! bb = Some blk ->
             forall k : IRBB -> M (gset nat),
               bind (deref_bb (Some bb)) k p2 = k blk p2).
  { intros p2 H2 k. clear -H2. mrun. by rewrite H2. }
  rewrite (Hd p Hblk) in H. unfold bind at 1 in H.
  destruct ((if is_entry blk then MarkSuccs fuel r bb else ret r) p) as [r1 p0| |] eqn:Hm;
    [|done|done].
  assert (Hm1 : p0 = p /\ r ⊆ r1 /\ (is_entry blk = true -> bb ∈ r1) /\
                (is_entry blk = false -> r1 = r) /\
                forall X p1, r1 ⊆ X -> same_flow X p p1 ->
                  (if is_entry blk then MarkSuccs fuel r bb else ret r) p1 = Ok r1 p1).
  { destruct (is_entry blk).
    - destruct (MarkSuccs_marks fuel r bb) as [Hmk Hin].
      destruct (Hmk p r1 p0 Hm) as (-> & Hsub & Hsim).
      split; [done|]. split; [done|]. split; [intros _; by eapply Hin|].
      split; [done|]. exact Hsim.
    - injection Hm as <- <-. split; [done|]. split; [done|]. split; [done|]. split; done. }
  destruct Hm1 as (-> & Hsub1 & Hentry & Hplain & Hsim1).
  destruct (spawn_fold_sim fuel (stmts blk) r1 p r' p' H) as (-> & Hsub & Hsim & Hskip).
  split; [done|]. split; [by transitivity r1|]. split.
  - intros X p1 HX Hbb Hsf. destruct (Hsf bb blk Hbb Hblk) as [Hb1 Hst].
    rewrite (Hd p1 Hb1). unfold bind at 1.
    rewrite (Hsim1 X p1) by (done || by transitivity r'). by apply (Hsim X).
  - intros Hnot Hno. destruct (is_entry blk) eqn:He.
    + exfalso. apply Hnot, Hsub. by apply Hentry.
    + rewrite <- (Hplain eq_refl). apply Hskip. intros q Hq. by apply (Hno blk).
Qed.

Lemma roots_fold_sim (fuel : nat) (R : gset nat) (l : list BBPtr) :
  forall r0 p p',
    fold_left (fun acc bb => r <- acc ;; mark_roots fuel bb r) l (ret r0) p = Ok R p' ->
    p' = p /\ r0 ⊆ R /\
    forall p1,
      same_flow R p p1 ->
      (forall bb blk q, bb ∈ l -> bb ∉ R -> bb_heap (ir p) !! bb = Some blk ->
                        q ∈ stmts blk -> not_spawn p q) ->
      fold_left (fun acc bb => r <- acc ;; mark_roots fuel bb r)
        (filter (fun bb => bb ∈ R) l) (ret r0) p1 = Ok R p1.
Proof.
  induction l as [|bb l IH]; intros r0 p p' H; simpl in *.
  - injection H as <- <-. split; [done|]. split; done.
  - rewrite fold_left_M in H.
    assert (Hb : forall p2, bind (ret r0) (fun r => mark_roots fuel bb r) p2
                            = mark_roots fuel bb r0 p2) by done.
    rewrite Hb in H.
    destruct (mark_roots fuel bb r0 p) as [r1 p0| |] eqn:Hm; [|done|done].
    destruct (mark_roots_sim fuel bb r0 p r1 p0 Hm) as (-> & Hsub1 & Hsim1 & Hskip).
    destruct (IH r1 p p' H) as (-> & Hsub & Hsim).
    split; [done|]. split; [by transitivity r1|].
    intros p1 Hsf Hno. destruct (decide (bb ∈ R)) as [Hin|Hout].
    + rewrite filter_cons_True by done. simpl. rewrite fold_left_M, Hb.
      rewrite (Hsim1 R p1) by done. apply Hsim; [done|].
      intros bb' blk q Hbb'. apply Hno. by right.
    + rewrite filter_cons_False by done.
      assert (r1 = r0) as ->.
      { apply Hskip; [by intros Hin; apply Hout, Hsub|].
        intros blk q Hblk Hq. apply (Hno bb blk q); [by left|done..]. }
      apply Hsim; [done|]. intros bb' blk q Hbb'. apply Hno. by right.
Qed.

Lemma Reachable_sim (fuel : nat) (R : gset nat) p p' :
  Reachable fuel p = Ok R p' ->
  p' = p /\
  forall p1,
    same_flow R p p1 -> dead_spawn_free R p ->
    bbs (ir p1) = filter (fun bb => bb ∈ R) (bbs (ir p)) ->
    Reachable fuel p1 = Ok R p1.
Proof.
  unfold Reachable. unfold bind at 1, gets at 1. intros H.
  destruct (roots_fold_sim fuel R _ _ _ _ H) as (-> & _ & Hsim). split; [done|].
  intros p1 Hsf Hno Hbbs. unfold bind at 1, gets at 1. rewrite Hbbs.
  apply Hsim; [done|]. intros bb blk q Hbb Hout Hblk Hq. by apply (Hno bb blk q).
Qed.

Lemma filter_all {A} (P : A -> Prop) `{forall x, Decision (P x)} (l : list A) :
  (forall x, x ∈ l -> P x) -> filter P l = l.
Proof.
  induction l as [|x l IH]; intros H0; [done|].
  rewrite filter_cons_True by (apply H0; left). f_equal. apply IH. intros y Hy. apply H0. by right.
Qed.
Lemma filter_none {A} (P : A -> Prop) `{forall x, Decision (P x)} (l : list A) :
  (forall x, x ∈ l -> ~ P x) -> filter P l = [].
Proof.
  induction l as [|x l IH]; intros H0; [done|].
  rewrite filter_cons_False by (apply H0; left). apply IH. intros y Hy. apply H0. by right.
Qed.

Lemma filter_inputs_clean reachable a : forall t n k,
  length t = length a -> length n = length a -> length k = length a ->
  Forall (fun x => x ∈ reachable) t ->
  filter_inputs reachable a t n k = Some (t, n, a, k).
Proof.
  induction a as [|x a IH]; intros [|t0 t] [|n0 n] [|k0 k] Ht Hn Hk HF; simpl in *; try done.
  inversion HF; subst. rewrite IH by (try lia; done).
  by destruct (decide (t0 ∈ reachable)).
Qed.

Lemma FilterPhiInputs_clean q s reachable p :
  stmt_heap (ir p) !! q = Some s -> phi_clean reachable s ->
  FilterPhiInputs q reachable p = Ok tt p.
Proof.
  intros Hq (Ht & Hn & Hk & HF). unfold FilterPhiInputs. destruct_pass p.
  run. rewrite Hq. run. rewrite filter_inputs_clean by done. run.
  destruct s. simpl. by rewrite insert_id.
Qed.

Lemma for_all_noop {A} (l : list A) (body : A -> M unit) p :
  (forall x, x ∈ l -> body x p = Ok tt p) -> for_all l body p = Ok tt p.
Proof.
  induction l as [|x l IH]; intros H; simpl; [done|].
  unfold bind. rewrite H by left. apply IH. intros y Hy. apply H. by right.
Qed.

(** Removal is a no-op on a clean program. *)
Lemma removal_noop_on_clean (fuel : nat) (p : CodeGenPass) (reachable : gset nat) :
  Reachable fuel p = Ok reachable p ->
  clean reachable p ->
  RemoveUnreachableBBsAndPhis fuel p = Ok tt p.
Proof.
  intros HR Hc. unfold RemoveUnreachableBBsAndPhis. unfold bind at 1. rewrite HR.
  unfold bind at 1. unfold gets at 1. unfold bind at 1.
  rewrite for_all_noop.
  - unfold modify_prog, modify_ctx, modify.
    assert (Hf1 : filter (fun bb => bb ∈ reachable) (bbs (ir p)) = bbs (ir p)).
    { apply filter_all. intros bb Hbb. by apply Hc. }
    assert (Hf2 : filter (fun bb => bb ∉ reachable) (bbs (ir p)) = []).
    { apply filter_none. intros bb Hbb Hn. apply Hn. by apply Hc. }
    unfold ir in *. rewrite Hf1, Hf2. by destruct_pass p.
  - intros bb Hbb. destruct (Hc bb Hbb) as (_ & blk & Hblk & Hst).
    unfold ir in *. run. rewrite Hblk. run.
    apply for_all_noop. intros q Hq. destruct (Hst q Hq) as (s & Hs & Hphi).
    run. rewrite Hs. run.
    case_bool_decide; [|done]. by apply (FilterPhiInputs_clean q s); auto.
Qed.

Lemma filtered_refl R p : filtered R p p.
Proof.
  split; [done|]. split; [done|]. intros q.
  destruct (stmt_heap (ir p) !! q); constructor. by left.
Qed.
Lemma filtered_trans R p q r : filtered R p q -> filtered R q r -> filtered R p r.
Proof.
  intros (Hb1 & Hh1 & Hs1) (Hb2 & Hh2 & Hs2).
  split; [by rewrite Hb2|]. split; [by rewrite Hh2|]. intros k.
  specialize (Hs1 k). specialize (Hs2 k).
  destruct Hs1 as [s s' H1|]; inversion Hs2 as [? s'' H2|]; subst; constructor.
  destruct H1 as [->|(Hp & Hp' & Hc)]; [done|].
  destruct H2 as [->|(_ & Hp'' & Hc')]; right; done.
Qed.
Lemma done_phi_mono R q p p' : done_phi R q p -> filtered R p p' -> done_phi R q p'.
Proof.
  intros (s & Hs & Hc) (_ & _ & Hst). specialize (Hst q). rewrite Hs in Hst.
  inversion Hst as [? s' H1|]; subst. exists s'. split; [done|].
  destruct H1 as [->|(_ & _ & Hc')]; done.
Qed.
Lemma done_bb_mono R bb p p' : done_bb R bb p -> filtered R p p' -> done_bb R bb p'.
Proof.
  intros (blk & Hblk & Hq) Hf. exists blk. split.
  - destruct Hf as (_ & -> & _). done.
  - intros q Hin. eapply done_phi_mono; [by apply Hq|done].
Qed.

Lemma for_all_rel {A : Type} (Rl : CodeGenPass -> CodeGenPass -> Prop)
    (Post : A -> CodeGenPass -> Prop) (l : list A) (body : A -> M unit) :
  (forall p, Rl p p) ->
  (forall p q r, Rl p q -> Rl q r -> Rl p r) ->
  (forall x p p', Post x p -> Rl p p' -> Post x p') ->
  (forall x p p', x ∈ l -> body x p = Ok tt p' -> Rl p p' /\ Post x p') ->
  forall p p', for_all l body p = Ok tt p' -> Rl p p' /\ forall x, x ∈ l -> Post x p'.
Proof.
  intros Hrefl Htrans Hmono. induction l as [|x l IH]; intros Hbody p p' H; simpl in *.
  - injection H as <-. split; [done|]. intros x Hx. by apply elem_of_nil in Hx.
  - unfold bind in H. destruct (body x p) as [[] p1| |] eqn:Hx; [|done|done].
    destruct (Hbody x p p1 ltac:(left) Hx) as [HR1 HP1].
    assert (Hbody' : forall y q q', y ∈ l -> body y q = Ok tt q' -> Rl q q' /\ Post y q').
    { intros y q q' Hy. apply Hbody. by right. }
    destruct (IH Hbody' p1 p' H) as [HR2 HP2].
    split; [by eapply Htrans|]. intros y Hy. apply elem_of_cons in Hy as [->|Hy].
    + by eapply Hmono.
    + by apply HP2.
Qed.

Lemma filter_inputs_out (R : gset nat) (a : list StmtPtr) :
  forall t n k t' n' a' k',
    filter_inputs R a t n k = Some (t', n', a', k') ->
    length t' = length a' /\ length n' = length a' /\ length k' = length a' /\
    Forall (fun x => x ∈ R) t'.
Proof.
  induction a as [|x a IH]; intros t n k t' n' a' k' H; simpl in H.
  - injection H as <- <- <- <-. by repeat split.
  - destruct t as [|t0 t]; [done|]. destruct n as [|n0 n]; [done|].
    destruct k as [|k0 k]; [done|].
    destruct (filter_inputs R a t n k) as [[[[ts ns] az] ks]|] eqn:Hf; [|done].
    destruct (IH _ _ _ _ _ _ _ Hf) as (H1 & H2 & H3 & H4).
    destruct (decide (t0 ∈ R)); injection H as <- <- <- <-.
    + simpl. split; [by f_equal|]. split; [by f_equal|]. split; [by f_equal|].
      by constructor.
    + done.
Qed.

Lemma phi_body_step R q p p' :
  phi_body R q p = Ok tt p' -> filtered R p p' /\ done_phi R q p'.
Proof.
  unfold phi_body. intros H.
  destruct (stmt_heap (ir p) !! q) as [s|] eqn:Hs; [|exfalso; mrun; by rewrite Hs in H].
  assert (Hd : forall k : IRStmt -> M unit, bind (deref_stmt (Some q)) k p = k s p).
  { intros k. clear -Hs. mrun. by rewrite Hs. }
  rewrite Hd in H. case_bool_decide as Hphi.
  - unfold FilterPhiInputs in H. rewrite Hd in H.
    destruct (filter_inputs R (args s) (targets s) (target_names s) (arg_nums s))
      as [[[[t' n'] a'] k']|] eqn:Hf; [|done].
    apply filter_inputs_out in Hf. unfold bind, of_option, ret in H.
    unfold modify_prog, modify_ctx, modify in H. injection H as <-.
    unfold filtered, done_phi, ir in *. simpl. split.
    + split; [done|]. split; [done|]. intros q'.
      destruct (decide (q' = q)) as [->|Hne].
      * rewrite Hs, lookup_insert_eq. constructor. right. done.
      * rewrite lookup_insert_ne by done.
        destruct (stmt_heap (prog_ (ctx_ p)) !! q'); constructor. by left.
    + eexists. rewrite lookup_insert_eq. split; [done|]. done.
  - injection H as <-. split; [apply filtered_refl|]. by exists s.
Qed.

Lemma blk_body_step R bb p p' :
  blk_body R bb p = Ok tt p' -> filtered R p p' /\ done_bb R bb p'.
Proof.
  unfold blk_body. intros H.
  destruct (bb_heap (ir p) !! bb) as [blk|] eqn:Hblk; [|exfalso; mrun; by rewrite Hblk in H].
  assert (Hd : forall k : IRBB -> M unit, bind (deref_bb (Some bb)) k p = k blk p).
  { intros k. clear -Hblk. mrun. by rewrite Hblk. }
  rewrite Hd in H.
  apply (for_all_rel (filtered R) (done_phi R)) in H as [Hf Hdone].
  - split; [done|]. exists blk. split; [|done]. destruct Hf as (_ & -> & _). done.
  - apply filtered_refl.
  - apply filtered_trans.
  - intros. by eapply done_phi_mono.
  - intros q p2 p2' _. apply phi_body_step.
Qed.

Lemma RemoveUnreachableBBsAndPhis_eq fuel :
  RemoveUnreachableBBsAndPhis fuel =
  (reachable <- Reachable fuel ;;
   l <- gets (fun p => bbs (ir p)) ;;
   do for_all l (blk_body reachable) ;;
   modify_prog (fun g =>
     set_bbs (filter (fun bb => bb ∈ reachable) (bbs g))
       (fold_left free_bb (filter (fun bb => bb ∉ reachable) (bbs g)) g))).
Proof. reflexivity. Qed.

Lemma lookup_foldr_delete_notin (m : gmap nat IRStmt) (l : list nat) (q : nat) :
  q ∉ l -> foldr delete m l !! q = m !! q.
Proof.
  induction l as [|x l IH]; intros Hq; simpl; [done|].
  apply not_elem_of_cons in Hq as [Hne Hq]. rewrite lookup_delete_ne by done. by apply IH.
Qed.

Lemma free_bb_spec (g : IRProgram) (b : BBPtr) :
  (forall b', b' <> b -> bb_heap (free_bb g b) !! b' = bb_heap g !! b') /\
  (forall b' blk, bb_heap (free_bb g b) !! b' = Some blk -> bb_heap g !! b' = Some blk) /\
  (forall q, (forall blk, bb_heap g !! b = Some blk -> q ∉ stmts blk) ->
             stmt_heap (free_bb g b) !! q = stmt_heap g !! q).
Proof.
  unfold free_bb. destruct (bb_heap g !! b) as [blk|] eqn:Hb; simpl; [|done].
  split; [|split].
  - intros b' Hne. by rewrite lookup_delete_ne.
  - intros b' blk' H. destruct (decide (b = b')) as [->|Hne].
    + by rewrite lookup_delete_eq in H.
    + by rewrite lookup_delete_ne in H.
  - intros q Hq. apply lookup_foldr_delete_notin. by apply Hq.
Qed.

Lemma free_bbs_spec (l : list BBPtr) :
  forall g : IRProgram,
    (forall b, b ∉ l -> bb_heap (fold_left free_bb l g) !! b = bb_heap g !! b) /\
    (forall q, (forall b blk, b ∈ l -> bb_heap g !! b = Some blk -> q ∉ stmts blk) ->
               stmt_heap (fold_left free_bb l g) !! q = stmt_heap g !! q).
Proof.
  induction l as [|b l IH]; intros g; simpl; [done|].
  destruct (free_bb_spec g b) as (Hne & Hsub & Hst).
  destruct (IH (free_bb g b)) as [IHb IHs]. split.
  - intros b' Hb'. apply not_elem_of_cons in Hb' as [Hneq Hb'].
    rewrite IHb by done. by apply Hne.
  - intros q Hq. rewrite IHs.
    + apply Hst. intros blk Hblk. apply (Hq b blk); [by left|done].
    + intros b' blk Hb' Hblk. apply (Hq b' blk); [by right|]. by apply Hsub.
Qed.

(** C8, as amended.  Let the removal of unreachable blocks run on a program
    in which every statement is owned by one block, and let [R] be the set
    of blocks that it finds reachable from the entry blocks and from the
    targets of the spawns.  If no block of the program outside [R] holds a
    spawn, a second run on the result of the first returns normally and
    changes nothing: the list of blocks, the blocks, the argument and
    target lists of every phi and the rest of the state are as the first
    run left them. *)
Theorem removal_idempotent (fuel : nat) (R : gset nat) (p p0 p1 : CodeGenPass) :
  Reachable fuel p = Ok R p0 ->
  RemoveUnreachableBBsAndPhis fuel p = Ok tt p1 ->
  dead_spawn_free R p ->
  owned_once p ->
  RemoveUnreachableBBsAndPhis fuel p1 = Ok tt p1.
Proof.
  intros HR Hrun Hno Hown.
  destruct (Reachable_sim fuel R p p0 HR) as [-> Hsim].
  rewrite RemoveUnreachableBBsAndPhis_eq in Hrun. unfold bind at 1 in Hrun.
  rewrite HR in Hrun. unfold bind at 1, gets at 1 in Hrun. unfold bind at 1 in Hrun.
  destruct (for_all (bbs (ir p)) (blk_body R) p) as [[] pf| |] eqn:Hloop; [|done|done].
  apply (for_all_rel (filtered R) (done_bb R)) in Hloop as [Hf Hdone];
    [|apply filtered_refl|apply filtered_trans|by intros; eapply done_bb_mono
     |by intros bb q q' _; apply blk_body_step].
  destruct Hf as (Hbbs & Hbh & Hst).
  set (dead := filter (fun bb => bb ∉ R) (bbs (ir pf))).
  assert (Hp1 : bbs (ir p1) = filter (fun bb => bb ∈ R) (bbs (ir pf)) /\
                bb_heap (ir p1) = bb_heap (fold_left free_bb dead (ir pf)) /\
                stmt_heap (ir p1) = stmt_heap (fold_left free_bb dead (ir pf))).
  { unfold modify_prog, modify_ctx, modify in Hrun. by injection Hrun as <-. }
  clear Hrun. destruct Hp1 as (Hbbs1 & Hbh1 & Hst1).
  destruct (free_bbs_spec dead (ir pf)) as [Hfb Hfs].
  assert (Hkeep_b : forall b, b ∈ R -> bb_heap (ir p1) !! b = bb_heap (ir p) !! b).
  { intros b Hb. rewrite Hbh1, Hfb; [by rewrite <- Hbh|].
    unfold dead. rewrite list_elem_of_filter. tauto. }
  assert (Hkeep_s : forall b blk q, b ∈ R -> bb_heap (ir p) !! b = Some blk -> q ∈ stmts blk ->
            stmt_heap (ir p1) !! q = stmt_heap (ir pf) !! q).
  { intros b blk q Hb Hblk Hq. rewrite Hst1. apply Hfs. intros b' blk' Hb' Hblk'.
    unfold dead in Hb'. apply list_elem_of_filter in Hb' as [Hout _].
    rewrite Hbh in Hblk'.
    apply (Hown b b' blk blk' q); [by intros ->|done..]. }
  apply (removal_noop_on_clean fuel _ R).
  - apply Hsim; [| done |].
    + intros b blk Hb Hblk. split; [by rewrite Hkeep_b|].
      intros q s Hq Hs. rewrite (Hkeep_s b blk q) by done.
      specialize (Hst q). rewrite Hs in Hst. inversion Hst as [? s' Href|]; subst.
      exists s'. split; [done|]. destruct Href as [->|(Hp & Hp' & _)]; [done|].
      split; [by rewrite Hp, Hp'|]. done.
    + by rewrite Hbbs1, Hbbs.
  - intros bb Hbb. rewrite Hbbs1 in Hbb.
    apply list_elem_of_filter in Hbb as [HbR Hbb]. split; [done|].
    rewrite Hbbs in Hbb.
    destruct (Hdone bb Hbb) as (blk & Hblk & Hq). rewrite Hbh in Hblk.
    exists blk. split; [by rewrite Hkeep_b|].
    intros q Hin. rewrite (Hkeep_s bb blk q) by done.
    by apply Hq.
Qed.

Lemma removal_idempotent_witness :
  RemoveUnreachableBBsAndPhis 20 Examples.swept_break = Ok tt Examples.swept_break.
Proof.
  apply (removal_idempotent 20 (reached (Reachable 20 Examples.with_break))
           Examples.with_break Examples.with_break).
  - vm_compute. reflexivity.
  - vm_compute. reflexivity.
  - assert (Hall : map_Forall
                     (fun bb blk =>
                        bb ∈ bbs (ir Examples.with_break) ->
                        bb ∉ reached (Reachable 20 Examples.with_break) ->
                        Forall (fun q => type <$> stmt_heap (ir Examples.with_break) !! q
                                         <> Some IRStmtSpawn) (stmts blk))
                     (bb_heap (ir Examples.with_break))).
    { apply (bool_decide_unpack _). vm_compute. exact I. }
    intros bb blk q Hbb Hout Hblk Hq.
    exact (proj1 (Forall_forall _ _) (Hall bb blk Hblk Hbb Hout) q Hq).
  - assert (Hall : map_Forall
                     (fun b blk =>
                        map_Forall
                          (fun b' blk' =>
                             b <> b' -> Forall (fun q => q ∉ stmts blk') (stmts blk))
                          (bb_heap (ir Examples.with_break)))
                     (bb_heap (ir Examples.with_break))).
    { apply (bool_decide_unpack _). vm_compute. exact I. }
    intros b b' blk blk' q Hne Hb Hb' Hq.
    exact (proj1 (Forall_forall _ _) (Hall b blk Hb b' blk' Hb' Hne) q Hq).
Defined.

(** C8 as stated fails.  In the lowering of
    [let x = 0; while (1) { break; spawn { } }] the spawn lies in the block
    that follows the [break], which nothing reaches.  The first run takes
    the target of that spawn as a root, keeps it, and removes the block of
    the spawn; the second run no longer sees the spawn and removes the
    target as well: the list of blocks goes from 0, 1, 2, 3, 5 to
    0, 1, 2, 3. *)
Lemma removal_not_idempotent :
  RemoveUnreachableBBsAndPhis 20 Examples.dead_spawn = Ok tt Examples.swept_once /\
  RemoveUnreachableBBsAndPhis 20 Examples.swept_once = Ok tt Examples.swept_twice /\
  bbs (ir Examples.dead_spawn) = [0; 1; 2; 3; 4; 5]%nat /\
  bbs (ir Examples.swept_once) = [0; 1; 2; 3; 5]%nat /\
  bbs (ir Examples.swept_twice) = [0; 1; 2; 3]%nat /\
  bbs (ir Examples.swept_twice) <> bbs (ir Examples.swept_once).
Proof. vm_compute. repeat split; try reflexivity. discriminate. Qed.

(** ** The header phis of a while loop *)

Section SortedFind.
Context {K V : Type} (key : K -> nat).

End SortedFind.






Section HeaderPhis.
Variables (in_bb hd : BBPtr) (iblk : IRBB).
Hypothesis Hne : in_bb <> hd.

End HeaderPhis.













